(** * Cycles GPU image sampling: intern/cycles/kernel/device/gpu/image.h

    A shallow embedding of the texture sampling kernel (frac, the cubic
    B-spline helpers, kernel_image_interp_bicubic, kernel_image_interp and
    kernel_image_interp_with_udim) together with the properties of it that
    the specification states.

    Modelling choices.
    - A C++ [float] is a rational number; every floating-point operation is
      the exact rational operation followed by one rounding [rnd].  Two
      roundings are provided: [exact] (no rounding, the arithmetic of the
      mathematical formulas) and [binary32] (IEEE-754 single precision,
      round to nearest, ties to even, with gradual underflow).  Infinities,
      NaN, overflow beyond FLT_MAX and the sign of zero are outside the
      model.
    - The kernel talks to the texture table, the image-info table, the tile
      wrap, the tile map, the UDIM index and the hardware read primitive.
      None of these is defined in image.h; each call to one of them is an
      event of a small free monad [Prog], answered by an environment. *)

From Stdlib Require Import ZArith QArith Qround Qabs Qpower Qreduction.
From Stdlib Require Import List Bool Lia Lqa Psatz Setoid Morphisms.
Import ListNotations.

Open Scope Q_scope.

(* ================================================================== *)
(** ** Floating-point arithmetic *)

Definition float := Q.

(** Rounding applied to the exact result of every float operation. *)
Class Rounding := { rnd : Q -> Q }.

(** No rounding: the arithmetic in which the formulas are read as
    identities between rational numbers. *)
Definition exact : Rounding := {| rnd := fun x => x |}.

(** [ilog2 x] is the integer [k] with [2^k <= x < 2^(k+1)], for [0 < x]. *)
Definition ilog2 (x : Q) : Z :=
  if Qle_bool 1 x then Z.log2 (Qfloor x)
  else (- Z.log2_up (Qceiling (/ x)))%Z.

(** Round to the nearest integer, ties to even. *)
Definition rne (y : Q) : Z :=
  let f := Qfloor y in
  match Qcompare (y - inject_Z f) (1 # 2) with
  | Lt => f
  | Gt => (f + 1)%Z
  | Eq => if Z.even f then f else (f + 1)%Z
  end.

(** Exponent of the unit in the last place of a binary32 number of the
    magnitude of [x]: 24 significant bits, smallest exponent -149. *)
Definition ulp_exp (x : Q) : Z := Z.max (ilog2 (Qabs x) - 23) (-149).

Definition round32_canon (x : Q) : Q :=
  if Qeq_bool x 0 then 0
  else let e := ulp_exp x in Qred (inject_Z (rne (x / 2 ^ e)) * 2 ^ e).

(** IEEE-754 binary32 rounding of a rational number. *)
Definition round32 (x : Q) : Q := round32_canon (Qred x).

Definition binary32 : Rounding := {| rnd := round32 |}.

Definition Qlt_bool (a b : Q) : bool := negb (Qle_bool b a).

Section FloatOps.
Context {R : Rounding}.

Definition fadd (a b : float) : float := rnd (a + b).
Definition fsub (a b : float) : float := rnd (a - b).
Definition fmul (a b : float) : float := rnd (a * b).
Definition fdiv (a b : float) : float := rnd (a / b).
(** Negation only flips the sign bit. *)
Definition fneg (a : float) : float := - a.
(** Conversion of an integer to float, as in [(float)i] and in the
    usual arithmetic conversion of [uv.x * info.width]. *)
Definition int_to_float (i : Z) : float := rnd (inject_Z i).
(** [floorf]: the floor of a float is a float. *)
Definition floorf (a : float) : float := inject_Z (Qfloor a).
End FloatOps.

(** Two's complement wrap-around of 32-bit [int] arithmetic. *)
Definition wrap_int (z : Z) : Z := ((z + 2 ^ 31) mod 2 ^ 32 - 2 ^ 31)%Z.

(** Modelled from the spec: float_to_int is declared in util/math.h, which
    is not part of the sources at hand.  It is the C conversion of a float
    to int, that is truncation towards zero ([trunc(x)] in the description
    of [frac]). *)
Definition float_to_int (x : float) : Z := Z.quot (Qnum x) (Zpos (Qden x)).

Section Cubic.
Context {R : Rounding}.

(** [frac] returns the fractional part and stores the integer part through
    the pointer [ix]; the pair is (return value, stored integer). *)
Definition frac (x : float) : float * Z :=
  let i := wrap_int (float_to_int x - (if Qlt_bool x 0 then 1 else 0)) in
  (fsub x (int_to_float i), i).

(** w0, w1, w2, and w3 are the four cubic B-spline basis functions. *)
Definition cubic_w0 (a : float) : float :=
  fmul (fdiv 1 6) (fadd (fmul a (fsub (fmul a (fadd (fneg a) 3)) 3)) 1).
Definition cubic_w1 (a : float) : float :=
  fmul (fdiv 1 6) (fadd (fmul (fmul a a) (fsub (fmul 3 a) 6)) 4).
Definition cubic_w2 (a : float) : float :=
  fmul (fdiv 1 6)
       (fadd (fmul a (fadd (fmul a (fadd (fmul (fneg 3) a) 3)) 3)) 1).
Definition cubic_w3 (a : float) : float :=
  fmul (fdiv 1 6) (fmul (fmul a a) a).

(** g0 and g1 are the two amplitude functions. *)
Definition cubic_g0 (a : float) : float := fadd (cubic_w0 a) (cubic_w1 a).
Definition cubic_g1 (a : float) : float := fadd (cubic_w2 a) (cubic_w3 a).

(** h0 and h1 are the two offset functions. *)
Definition cubic_h0 (a : float) : float :=
  fsub (fdiv (cubic_w1 a) (cubic_g0 a)) 1.
Definition cubic_h1 (a : float) : float :=
  fadd (fdiv (cubic_w3 a) (cubic_g1 a)) 1.
End Cubic.

(* ================================================================== *)
(** ** Kernel data *)

Record float2 := make_float2 { f2x : float; f2y : float }.
Record float4 := make_float4
  { f4x : float; f4y : float; f4z : float; f4w : float }.

Definition zero_float2 : float2 := make_float2 0 0.
Definition zero_float4 : float4 := make_float4 0 0 0 0.

(** Screen-space derivatives of the coordinate; only handed on to the tile
    map. *)
Record differential2 := make_differential2 { d2dx : float2; d2dy : float2 }.

(** Modelled from the spec: the enumerators of ImageDataType are declared
    in util/texture.h, which is not part of the sources at hand; these are
    the eight kinds the spec lists. *)
Inductive ImageDataType :=
| IMAGE_DATA_TYPE_FLOAT4
| IMAGE_DATA_TYPE_BYTE4
| IMAGE_DATA_TYPE_HALF4
| IMAGE_DATA_TYPE_FLOAT
| IMAGE_DATA_TYPE_BYTE
| IMAGE_DATA_TYPE_HALF
| IMAGE_DATA_TYPE_USHORT4
| IMAGE_DATA_TYPE_USHORT.

Definition ImageDataType_eqb (a b : ImageDataType) : bool :=
  match a, b with
  | IMAGE_DATA_TYPE_FLOAT4, IMAGE_DATA_TYPE_FLOAT4
  | IMAGE_DATA_TYPE_BYTE4, IMAGE_DATA_TYPE_BYTE4
  | IMAGE_DATA_TYPE_HALF4, IMAGE_DATA_TYPE_HALF4
  | IMAGE_DATA_TYPE_FLOAT, IMAGE_DATA_TYPE_FLOAT
  | IMAGE_DATA_TYPE_BYTE, IMAGE_DATA_TYPE_BYTE
  | IMAGE_DATA_TYPE_HALF, IMAGE_DATA_TYPE_HALF
  | IMAGE_DATA_TYPE_USHORT4, IMAGE_DATA_TYPE_USHORT4
  | IMAGE_DATA_TYPE_USHORT, IMAGE_DATA_TYPE_USHORT => true
  | _, _ => false
  end.

(** Modelled from the spec: the enumerators of InterpolationType are
    declared in util/texture.h, which is not part of the sources at hand;
    the spec names nearest, linear, cubic and smart. *)
Inductive InterpolationType :=
| INTERPOLATION_LINEAR
| INTERPOLATION_CLOSEST
| INTERPOLATION_CUBIC
| INTERPOLATION_SMART.

Definition InterpolationType_eqb (a b : InterpolationType) : bool :=
  match a, b with
  | INTERPOLATION_LINEAR, INTERPOLATION_LINEAR
  | INTERPOLATION_CLOSEST, INTERPOLATION_CLOSEST
  | INTERPOLATION_CUBIC, INTERPOLATION_CUBIC
  | INTERPOLATION_SMART, INTERPOLATION_SMART => true
  | _, _ => false
  end.

(** The fields of KernelImageInfo that image.h reads. *)
Record KernelImageInfo := make_KernelImageInfo
  { info_data : Z;                       (* handle of the image object *)
    info_data_type : ImageDataType;
    info_interpolation : InterpolationType;
    info_width : Z;
    info_height : Z }.

(** The fields of KernelImageTexture that image.h reads. *)
Record KernelImageTexture := make_KernelImageTexture
  { tex_slot : Z;
    tex_tile_descriptor_offset : Z;
    tex_extension : Z;
    tex_average_color : float4 }.

Definition UINT_MAX : Z := 4294967295.

(** Modelled from the spec: KernelTileDescriptor, KERNEL_TILE_LOAD_FAILED,
    kernel_tile_descriptor_loaded and kernel_tile_descriptor_slot are
    declared in kernel/util/image.h, which is not part of the sources at
    hand.  Per the spec a tile descriptor is in one of three states: loaded
    into a slot, permanently failed to load, or not resident. *)
Inductive KernelTileDescriptor :=
| KERNEL_TILE_LOADED (slot : Z)
| KERNEL_TILE_LOAD_FAILED
| KERNEL_TILE_NOT_LOADED.

(** Modelled from the spec: kernel_tile_descriptor_loaded, declared in
    kernel/util/image.h; it holds of the descriptors that resolve to a
    slot. *)
Definition kernel_tile_descriptor_loaded (d : KernelTileDescriptor) : bool :=
  match d with KERNEL_TILE_LOADED _ => true | _ => false end.

(** Modelled from the spec: kernel_tile_descriptor_slot, declared in
    kernel/util/image.h; the slot of a loaded descriptor.  The kernel calls
    it on loaded descriptors only. *)
Definition kernel_tile_descriptor_slot (d : KernelTileDescriptor) : Z :=
  match d with KERNEL_TILE_LOADED slot => slot | _ => 0%Z end.

Definition KernelTileDescriptor_eqb (a b : KernelTileDescriptor) : bool :=
  match a, b with
  | KERNEL_TILE_LOADED s, KERNEL_TILE_LOADED t => Z.eqb s t
  | KERNEL_TILE_LOAD_FAILED, KERNEL_TILE_LOAD_FAILED => true
  | KERNEL_TILE_NOT_LOADED, KERNEL_TILE_NOT_LOADED => true
  | _, _ => false
  end.

(** Modelled from the spec: the macro IMAGE_TEXTURE_MISSING_RGBA is declared
    outside the sources at hand.  The spec describes it as one fixed colour
    and gives magenta as its example. *)
Definition IMAGE_TEXTURE_MISSING_RGBA : float4 := make_float4 1 0 1 1.

(* ================================================================== *)
(** ** Calls to the collaborators *)

(** One constructor per external operation the kernel invokes; the index is
    the type of the answer.  Arguments passed by reference and changed by
    the callee ([uv] in the wrap and the UDIM map, [xy] in the tile map)
    come back as part of the answer. *)
Inductive Event : Type -> Type :=
| image_textures_fetch (tex_id : Z) : Event KernelImageTexture
| image_info_fetch (slot : Z) : Event KernelImageInfo
| image_tile_wrap (extension : Z) (uv : float2) : Event (bool * float2)
| image_tile_map (tex : KernelImageTexture) (uv : float2)
                 (duv : differential2) (xy : float2)
    : Event (KernelTileDescriptor * float2)
| image_udim_map (image_id : Z) (uv : float2) : Event (Z * float2)
| image_object_read_2D_float (tex : Z) (x y : float) : Event float
| image_object_read_2D_float4 (tex : Z) (x y : float) : Event float4.

(** Programs that return a value after finitely many calls. *)
Inductive Prog (A : Type) : Type :=
| Ret (a : A)
| Vis {X : Type} (e : Event X) (k : X -> Prog A).

Arguments Ret {A} a.
Arguments Vis {A X} e k.

Fixpoint bind {A B : Type} (p : Prog A) (f : A -> Prog B) : Prog B :=
  match p with
  | Ret a => f a
  | Vis e k => Vis e (fun x => bind (k x) f)
  end.

Definition trigger {X : Type} (e : Event X) : Prog X := Vis e Ret.

Declare Scope prog_scope.
Delimit Scope prog_scope with prog.
Notation "x <- p ;; q" := (bind p (fun x => q))
  (at level 61, p at next level, right associativity) : prog_scope.
Notation "' pat <- p ;; q" := (bind p (fun x => match x with pat => q end))
  (at level 61, pat pattern, p at next level, right associativity)
  : prog_scope.

(** A read-only environment answers every call. *)
Definition Env := forall X : Type, Event X -> X.

Fixpoint eval {A : Type} (env : Env) (p : Prog A) : A :=
  match p with
  | Ret a => a
  | Vis e k => eval env (k (env _ e))
  end.

Inductive Call : Type :=
| call : forall X : Type, Event X -> Call.

Arguments call {X} e.

(** The calls a program makes, in order. *)
Fixpoint trace {A : Type} (env : Env) (p : Prog A) : list Call :=
  match p with
  | Ret _ => []
  | Vis e k => call e :: trace env (k (env _ e))
  end.

(** Collaborators that may also change a shared state [S]. *)
Definition Handler (S : Type) := forall X : Type, Event X -> S -> X * S.

Fixpoint run {S A : Type} (h : Handler S) (p : Prog A) (s : S) : A * S :=
  match p with
  | Ret a => (a, s)
  | Vis e k => let (x, s') := h _ e s in run h (k x) s'
  end.

(** No collaborator writes to the shared state. *)
Definition read_only {S : Type} (h : Handler S) : Prop :=
  forall (X : Type) (e : Event X) (s : S), snd (h X e s) = s.

(** The answers a handler gives in state [s]. *)
Definition snapshot {S : Type} (h : Handler S) (s : S) : Env :=
  fun X e => fst (h X e s).

(** Which collaborator a call goes to. *)
Inductive Collaborator :=
| TextureTable | ImageInfoTable | TileWrap | TileMap | UdimIndex
| HardwareRead.

Definition collaborator (c : Call) : Collaborator :=
  match c with
  | call (image_textures_fetch _) => TextureTable
  | call (image_info_fetch _) => ImageInfoTable
  | call (image_tile_wrap _ _) => TileWrap
  | call (image_tile_map _ _ _ _) => TileMap
  | call (image_udim_map _ _) => UdimIndex
  | call (image_object_read_2D_float _ _ _) => HardwareRead
  | call (image_object_read_2D_float4 _ _ _) => HardwareRead
  end.

Definition Collaborator_eqb (a b : Collaborator) : bool :=
  match a, b with
  | TextureTable, TextureTable | ImageInfoTable, ImageInfoTable
  | TileWrap, TileWrap | TileMap, TileMap | UdimIndex, UdimIndex
  | HardwareRead, HardwareRead => true
  | _, _ => false
  end.

(** Does the program call collaborator [c] in environment [env]? *)
Definition calls_to {A : Type} (c : Collaborator) (env : Env) (p : Prog A)
  : bool :=
  existsb (fun k => Collaborator_eqb (collaborator k) c) (trace env p).

(* ================================================================== *)
(** ** The sampled value type *)

(** What kernel_image_interp_bicubic needs of its template parameter [T]:
    addition, multiplication by a float, and the read primitive
    [ccl_gpu_image_object_read_2D<T>]. *)
Class ImageValue (T : Type) :=
  { vadd : T -> T -> T;
    vscale : float -> T -> T;
    ccl_gpu_image_object_read_2D : Z -> float -> float -> Event T }.

Section Values.
Context {R : Rounding}.

#[export] Instance float_value : ImageValue float :=
  {| vadd := fadd;
     vscale := fmul;
     ccl_gpu_image_object_read_2D := image_object_read_2D_float |}.

(** float4 arithmetic is componentwise. *)
Definition float4_add (a b : float4) : float4 :=
  make_float4 (fadd (f4x a) (f4x b)) (fadd (f4y a) (f4y b))
              (fadd (f4z a) (f4z b)) (fadd (f4w a) (f4w b)).
Definition float4_scale (f : float) (a : float4) : float4 :=
  make_float4 (fmul f (f4x a)) (fmul f (f4y a))
              (fmul f (f4z a)) (fmul f (f4w a)).

#[export] Instance float4_value : ImageValue float4 :=
  {| vadd := float4_add;
     vscale := float4_scale;
     ccl_gpu_image_object_read_2D := image_object_read_2D_float4 |}.
End Values.

(* ================================================================== *)
(** ** The kernel *)

Open Scope prog_scope.

Section Kernel.
Context {R : Rounding}.

(** The value of the macro KERNEL_IMAGE_NONE is declared outside the
    sources at hand; the kernel only compares against it. *)
Variable KERNEL_IMAGE_NONE : Z.

(** Fast bicubic texture lookup using 4 bilinear lookups. *)
Definition kernel_image_interp_bicubic {T : Type} {V : ImageValue T}
           (info : KernelImageInfo) (uv : float2) : Prog T :=
  let tex := info_data info in
  let x := fsub (fmul (f2x uv) (int_to_float (info_width info))) (1 # 2) in
  let y := fsub (fmul (f2y uv) (int_to_float (info_height info))) (1 # 2) in
  let px := floorf x in
  let py := floorf y in
  let fx := fsub x px in
  let fy := fsub y py in
  let g0x := cubic_g0 fx in
  let g1x := cubic_g1 fx in
  let x0 := fdiv (fadd (fadd px (cubic_h0 fx)) (1 # 2))
                 (int_to_float (info_width info)) in
  let x1 := fdiv (fadd (fadd px (cubic_h1 fx)) (1 # 2))
                 (int_to_float (info_width info)) in
  let y0 := fdiv (fadd (fadd py (cubic_h0 fy)) (1 # 2))
                 (int_to_float (info_height info)) in
  let y1 := fdiv (fadd (fadd py (cubic_h1 fy)) (1 # 2))
                 (int_to_float (info_height info)) in
  s00 <- trigger (ccl_gpu_image_object_read_2D tex x0 y0) ;;
  s10 <- trigger (ccl_gpu_image_object_read_2D tex x1 y0) ;;
  s01 <- trigger (ccl_gpu_image_object_read_2D tex x0 y1) ;;
  s11 <- trigger (ccl_gpu_image_object_read_2D tex x1 y1) ;;
  Ret (vadd (vscale (cubic_g0 fy) (vadd (vscale g0x s00) (vscale g1x s10)))
            (vscale (cubic_g1 fy) (vadd (vscale g0x s01) (vscale g1x s11)))).

Definition is_cubic_or_smart (i : InterpolationType) : bool :=
  InterpolationType_eqb i INTERPOLATION_CUBIC
  || InterpolationType_eqb i INTERPOLATION_SMART.

(** Lines 97-128 of kernel_image_interp: from the texture id to the image
    to sample.  [inl c] is an early [return c]; [inr (info, uv)] falls
    through to the sampling code with the image info and the coordinate
    it is left with. *)
Definition kernel_image_interp_resolve
           (tex_id : Z) (uv : float2) (duv : differential2)
  : Prog (float4 + KernelImageInfo * float2) :=
  tex <- trigger (image_textures_fetch tex_id) ;;
  if negb (tex_tile_descriptor_offset tex =? UINT_MAX)%Z then
    (* Wrapping. *)
    ' (inside, uv) <- trigger (image_tile_wrap (tex_extension tex) uv) ;;
    if negb inside then Ret (inl zero_float4)
    else
      (* Tile mapping *)
      ' (tile_descriptor, xy) <-
          trigger (image_tile_map tex uv duv zero_float2) ;;
      if negb (kernel_tile_descriptor_loaded tile_descriptor) then
        Ret (inl (if KernelTileDescriptor_eqb tile_descriptor
                                              KERNEL_TILE_LOAD_FAILED
                  then IMAGE_TEXTURE_MISSING_RGBA
                  else tex_average_color tex))
      else
        info <- trigger (image_info_fetch
                           (kernel_tile_descriptor_slot tile_descriptor)) ;;
        (* Convert to normalized space again. *)
        Ret (inr (info,
                  make_float2
                    (fdiv (f2x xy) (int_to_float (info_width info)))
                    (fdiv (f2y xy) (int_to_float (info_height info)))))
  else
    (* Full image sampling. *)
    if (tex_slot tex =? KERNEL_IMAGE_NONE)%Z then
      Ret (inl IMAGE_TEXTURE_MISSING_RGBA)
    else
      info <- trigger (image_info_fetch (tex_slot tex)) ;;
      Ret (inr (info, uv)).

Definition is_four_channel (t : ImageDataType) : bool :=
  ImageDataType_eqb t IMAGE_DATA_TYPE_FLOAT4
  || ImageDataType_eqb t IMAGE_DATA_TYPE_BYTE4
  || ImageDataType_eqb t IMAGE_DATA_TYPE_HALF4
  || ImageDataType_eqb t IMAGE_DATA_TYPE_USHORT4.

(** Lines 130-156 of kernel_image_interp: sampling of the resolved image
    according to its data type and interpolation. *)
Definition kernel_image_interp_sample
           (info : KernelImageInfo) (uv : float2) : Prog float4 :=
  let texture_type := info_data_type info in
  (* float4, byte4, ushort4 and half4 *)
  if is_four_channel texture_type then
    if is_cubic_or_smart (info_interpolation info) then
      kernel_image_interp_bicubic (T := float4) info uv
    else
      let tex := info_data info in
      trigger (image_object_read_2D_float4 tex (f2x uv) (f2y uv))
  (* float, byte and half *)
  else
    f <- (if is_cubic_or_smart (info_interpolation info) then
            kernel_image_interp_bicubic (T := float) info uv
          else
            let tex := info_data info in
            trigger (image_object_read_2D_float tex (f2x uv) (f2y uv))) ;;
    Ret (make_float4 f f f 1).

Definition kernel_image_interp
           (tex_id : Z) (uv : float2) (duv : differential2) : Prog float4 :=
  if (tex_id =? KERNEL_IMAGE_NONE)%Z then Ret IMAGE_TEXTURE_MISSING_RGBA
  else
    r <- kernel_image_interp_resolve tex_id uv duv ;;
    match r with
    | inl c => Ret c
    | inr (info, uv) => kernel_image_interp_sample info uv
    end.

Definition kernel_image_interp_with_udim
           (image_id : Z) (uv : float2) (duv : differential2)
  : Prog float4 :=
  ' (tex_id, uv) <- trigger (image_udim_map image_id uv) ;;
  if (tex_id =? KERNEL_IMAGE_NONE)%Z then Ret IMAGE_TEXTURE_MISSING_RGBA
  else kernel_image_interp tex_id uv duv.
End Kernel.

(* ================================================================== *)
(** ** The formulas of the specification *)

Section Formulas.
Context {R : Rounding}.

(** The sampling procedure of the bicubic reconstructor, as the
    specification words it: for an image of extents [W], [H], a normalized
    coordinate [(u, v)] and a bilinear read [S], in steps 1 to 5. *)
Definition pixel_coord (u : float) (W : Z) : float :=
  fsub (fmul u (int_to_float W)) (1 # 2).
Definition pixel_int (x : float) : float := floorf x.
Definition pixel_frac (x : float) : float := fsub x (pixel_int x).
Definition tap0 (u : float) (W : Z) : float :=
  let x := pixel_coord u W in
  fdiv (fadd (fadd (pixel_int x) (cubic_h0 (pixel_frac x))) (1 # 2))
       (int_to_float W).
Definition tap1 (u : float) (W : Z) : float :=
  let x := pixel_coord u W in
  fdiv (fadd (fadd (pixel_int x) (cubic_h1 (pixel_frac x))) (1 # 2))
       (int_to_float W).

Definition bicubic_formula {T : Type} {V : ImageValue T}
           (S : float -> float -> T) (W H : Z) (u v : float) : T :=
  let fx := pixel_frac (pixel_coord u W) in
  let fy := pixel_frac (pixel_coord v H) in
  let x0 := tap0 u W in
  let x1 := tap1 u W in
  let y0 := tap0 v H in
  let y1 := tap1 v H in
  vadd (vscale (cubic_g0 fy)
               (vadd (vscale (cubic_g0 fx) (S x0 y0))
                     (vscale (cubic_g1 fx) (S x1 y0))))
       (vscale (cubic_g1 fy)
               (vadd (vscale (cubic_g0 fx) (S x0 y1))
                     (vscale (cubic_g1 fx) (S x1 y1)))).
End Formulas.

(** Bilinear interpolation of the texel grid [texel] at the point [(xb, yb)]
    of pixel space, in which texel [(i, j)] sits at the integer point
    [(i, j)]. *)
Definition bilerp (texel : Z -> Z -> Q) (xb yb : Q) : Q :=
  let i := Qfloor xb in
  let j := Qfloor yb in
  let a := xb - inject_Z i in
  let b := yb - inject_Z j in
  (1 - a) * (1 - b) * texel i j + a * (1 - b) * texel (i + 1)%Z j
  + (1 - a) * b * texel i (j + 1)%Z + a * b * texel (i + 1)%Z (j + 1)%Z.

(** Modelled from the spec: the hardware read primitive
    ccl_gpu_image_object_read_2D is external to image.h.  This is the
    bilinear fetch at a normalized coordinate of an image of [W] by [H]
    texels, in the linear filtering convention the comment in
    kernel_image_interp_bicubic refers to: texel [(i, j)] has its centre at
    [((i + 1/2) / W, (j + 1/2) / H)].  [texel] is total, so it includes the
    addressing of texels outside the image.  The filter is computed
    exactly. *)
Definition bilinear_read (W H : Z) (texel : Z -> Z -> Q) (u v : Q) : Q :=
  bilerp texel (u * inject_Z W - (1 # 2)) (v * inject_Z H - (1 # 2)).

(** An environment made of one single-channel image: every scalar read is
    the bilinear fetch from [texel], every image info is [info]. *)
Definition image_env (info : KernelImageInfo) (texel : Z -> Z -> Q) : Env :=
  fun X e =>
    match e in Event X return X with
    | image_textures_fetch _ =>
        make_KernelImageTexture 0 UINT_MAX 0 zero_float4
    | image_info_fetch _ => info
    | image_tile_wrap _ uv => (true, uv)
    | image_tile_map _ _ _ xy => (KERNEL_TILE_NOT_LOADED, xy)
    | image_udim_map _ uv => (0%Z, uv)
    | image_object_read_2D_float _ x y =>
        bilinear_read (info_width info) (info_height info) texel x y
    | image_object_read_2D_float4 _ x y =>
        let f := bilinear_read (info_width info) (info_height info) texel x y
        in make_float4 f f f 1
    end.

(* ================================================================== *)
(** ** A concrete scene *)

Module Scene.
Definition NONE : Z := (-1)%Z.

(** A 4 by 4 image that is 1 at texel (1, 1) and 0 elsewhere. *)
Definition dot (i j : Z) : Q :=
  if ((i =? 1) && (j =? 1))%Z then 1 else 0.

Definition info_of (slot : Z) : KernelImageInfo :=
  if (slot =? 0)%Z then
    make_KernelImageInfo 100 IMAGE_DATA_TYPE_FLOAT INTERPOLATION_LINEAR 4 4
  else if (slot =? 1)%Z then
    make_KernelImageInfo 101 IMAGE_DATA_TYPE_FLOAT INTERPOLATION_CUBIC 4 4
  else
    make_KernelImageInfo 102 IMAGE_DATA_TYPE_FLOAT4 INTERPOLATION_SMART 4 4.

Definition average : float4 := make_float4 (1 # 4) (1 # 2) (3 # 4) 1.

(** Texture 0 is a full image in slot 0, texture 1 is tiled, texture 2 is
    a full image in slot 1, any other texture has no image. *)
Definition texture_of (tex_id : Z) : KernelImageTexture :=
  if (tex_id =? 0)%Z then make_KernelImageTexture 0 UINT_MAX 0 average
  else if (tex_id =? 1)%Z then make_KernelImageTexture NONE 0 2 average
  else if (tex_id =? 2)%Z then make_KernelImageTexture 1 UINT_MAX 0 average
  else make_KernelImageTexture NONE UINT_MAX 0 average.

(** Clipping: coordinates outside the unit square are rejected. *)
Definition wrap (uv : float2) : bool * float2 :=
  (Qle_bool 0 (f2x uv) && Qlt_bool (f2x uv) 1
   && Qle_bool 0 (f2y uv) && Qlt_bool (f2y uv) 1, uv).

(** The left half of the tiled texture is resident in slot 0, its lower
    right quarter failed to load, the rest is not resident. *)
Definition tile_of (uv : float2) : KernelTileDescriptor * float2 :=
  (if Qlt_bool (f2x uv) (1 # 2) then KERNEL_TILE_LOADED 0
   else if Qlt_bool (f2y uv) (1 # 2) then KERNEL_TILE_LOAD_FAILED
   else KERNEL_TILE_NOT_LOADED,
   make_float2 (Qred (4 * f2x uv)) (Qred (4 * f2y uv))).

Definition udim_of (image_id : Z) (uv : float2) : Z * float2 :=
  if (image_id =? 1001)%Z then (0%Z, uv)
  else if (image_id =? 1002)%Z then (1%Z, uv)
  else (NONE, uv).

Definition env : Env :=
  fun X e =>
    match e in Event X return X with
    | image_textures_fetch tex_id => texture_of tex_id
    | image_info_fetch slot => info_of slot
    | image_tile_wrap _ uv => wrap uv
    | image_tile_map _ uv _ _ => tile_of uv
    | image_udim_map image_id uv => udim_of image_id uv
    | image_object_read_2D_float _ x y => Qred (bilinear_read 4 4 dot x y)
    | image_object_read_2D_float4 _ x y =>
        let f := Qred (bilinear_read 4 4 dot x y) in make_float4 f f f 1
    end.

(** The same collaborators, with a shared counter they never touch. *)
Definition handler : Handler nat := fun X e s => (env X e, s).

Definition duv : differential2 :=
  make_differential2 zero_float2 zero_float2.
End Scene.

(* ================================================================== *)
(** ** Notions used by the properties *)

(** The standard model of floating-point rounding in single precision: a
    relative error of at most 2^-24, plus an absolute error of at most
    2^-150 where the result is subnormal. *)
Definition standard_model (R : Rounding) : Prop :=
  forall x : Q, Qabs (rnd x - x) <= 2 ^ (-24) * Qabs x + 2 ^ (-150).

(** [v] is within [E] of [c]. *)
Definition approx (v c E : Q) : Prop := c - E <= v /\ v <= c + E.

(** Bound on the rounding error of a number of magnitude at most [M]. *)
Definition rnd_err (M : Q) : Q := 2 ^ (-24) * M + 2 ^ (-150).

(** The integer [frac] computes, before the wrap-around of [int]. *)
Definition frac_int (x : Q) : Z :=
  (float_to_int x - (if Qlt_bool x 0 then 1 else 0))%Z.

Section Sums.
Context {R : Rounding}.

(** The four weights added from left to right, and the two amplitudes
  added, in float arithmetic. *)
Definition weight_sum (a : float) : float :=
fadd (fadd (fadd (cubic_w0 a) (cubic_w1 a)) (cubic_w2 a)) (cubic_w3 a).
Definition amplitude_sum (a : float) : float :=
fadd (cubic_g0 a) (cubic_g1 a).
End Sums.

(* ================================================================== *)
(** ** Notions used by the further properties *)

(** Number of calls to collaborator [c] in a trace. *)
Definition count_calls (c : Collaborator) (t : list Call) : nat :=
  length (filter (fun k => Collaborator_eqb (collaborator k) c) t).

(** Every scalar read the environment answers lies between [lo] and [hi]. *)
Definition reads_within (env : Env) (lo hi : Q) : Prop :=
  forall (tex : Z) (x y : float),
    lo <= env _ (image_object_read_2D_float tex x y) <= hi.

(** Every channel of [c] lies between [lo] and [hi]. *)
Definition float4_within (lo hi : Q) (c : float4) : Prop :=
  lo <= f4x c <= hi /\ lo <= f4y c <= hi /\ lo <= f4z c <= hi
  /\ lo <= f4w c <= hi.

(** Every 4-channel read the environment answers lies, channel by channel,
    between [lo] and [hi]. *)
Definition reads4_within (env : Env) (lo hi : Q) : Prop :=
  forall (tex : Z) (x y : float),
    float4_within lo hi (env _ (image_object_read_2D_float4 tex x y)).

(** The cubic B-spline filter over four texels of row [j], and over 4 by 4
    texels, with base texel [(i, j)] and fractional offsets [a], [b]. *)
Definition bspline_row (texel : Z -> Z -> Q) (a : Q) (i j : Z) : Q :=
  @cubic_w0 exact a * texel (i - 1)%Z j + @cubic_w1 exact a * texel i j
  + @cubic_w2 exact a * texel (i + 1)%Z j
  + @cubic_w3 exact a * texel (i + 2)%Z j.

Definition bspline16 (texel : Z -> Z -> Q) (a b : Q) (i j : Z) : Q :=
  @cubic_w0 exact b * bspline_row texel a i (j - 1)%Z
  + @cubic_w1 exact b * bspline_row texel a i j
  + @cubic_w2 exact b * bspline_row texel a i (j + 1)%Z
  + @cubic_w3 exact b * bspline_row texel a i (j + 2)%Z.

(** Is [x] a whole number? *)
Definition is_whole (x : Q) : bool := Qeq_bool x (inject_Z (Qfloor x)).

(** Does every hardware read of the trace come after an image-info fetch?
    [fetched] tells whether a fetch has been seen before the trace. *)
Fixpoint reads_follow_fetch (fetched : bool) (t : list Call) : bool :=
  match t with
  | [] => true
  | c :: t' =>
      match collaborator c with
      | HardwareRead => fetched && reads_follow_fetch fetched t'
      | ImageInfoTable => reads_follow_fetch true t'
      | _ => reads_follow_fetch fetched t'
      end
  end.

(** The largest finite binary32 number, (2^24 - 1) * 2^104.  [round32]
    has no largest exponent, so it agrees with binary32 only on results of
    magnitude up to this bound. *)
Definition FLT_MAX : Q := (2 ^ 24 - 1) * 2 ^ 104.

(* ================================================================== *)
(** * Properties *)

(** ** Programs and their interpreters *)

Lemma eval_bind {A B : Type} (env : Env) (p : Prog A) (f : A -> Prog B) :
  eval env (bind p f) = eval env (f (eval env p)).
Proof.
  induction p as [a | X e k IH]; simpl.
  - reflexivity.
  - apply IH.
Qed.

Lemma trace_bind {A B : Type} (env : Env) (p : Prog A) (f : A -> Prog B) :
  trace env (bind p f) = trace env p ++ trace env (f (eval env p)).
Proof.
  induction p as [a | X e k IH]; simpl.
  - reflexivity.
  - now rewrite IH.
Qed.

Lemma calls_to_bind {A B : Type} (c : Collaborator) (env : Env)
      (p : Prog A) (f : A -> Prog B) :
  calls_to c env (bind p f)
  = calls_to c env p || calls_to c env (f (eval env p)).
Proof.
  unfold calls_to. rewrite trace_bind. apply existsb_app.
Qed.

(** Under read-only collaborators a run leaves the state alone and returns
    what the environment of the initial state gives. *)
Lemma run_read_only {S A : Type} (h : Handler S) (p : Prog A) (s : S) :
  read_only h -> run h p s = (eval (snapshot h s) p, s).
Proof.
  intros Hro. induction p as [a | X e k IH]; simpl.
  - reflexivity.
  - specialize (Hro X e s).
    replace (snapshot h s X e) with (fst (h X e s)) by reflexivity.
    destruct (h X e s) as [x s']. simpl in *. subst s'. apply IH.
Qed.

Lemma Scene_handler_read_only : read_only Scene.handler.
Proof. intros X e s. reflexivity. Qed.

(** ** The dispatcher *)

Section Dispatcher.
Context {R : Rounding}.
Variable NONE : Z.

Lemma interp_not_none tex_id uv duv :
  tex_id <> NONE ->
  kernel_image_interp NONE tex_id uv duv
  = (r <- kernel_image_interp_resolve NONE tex_id uv duv ;;
     match r with
     | inl c => Ret c
     | inr (info, uv) => kernel_image_interp_sample info uv
     end).
Proof.
  intros Hne. unfold kernel_image_interp.
  destruct (Z.eqb_spec tex_id NONE); [contradiction | reflexivity].
Qed.

(** C5: with the NONE texture reference the dispatcher is the program that
    returns the missing-texture colour at once: whatever the environment,
    the coordinate and the differential, the result is the sentinel and
    no collaborator (texture table, wrap, tile map, image table, hardware
    read) is called. *)
Theorem interp_none_is_missing (env : Env) (uv : float2)
        (duv : differential2) :
  kernel_image_interp NONE NONE uv duv = Ret IMAGE_TEXTURE_MISSING_RGBA
  /\ eval env (kernel_image_interp NONE NONE uv duv)
     = IMAGE_TEXTURE_MISSING_RGBA
  /\ trace env (kernel_image_interp NONE NONE uv duv) = [].
Proof.
  assert (H : kernel_image_interp NONE NONE uv duv
              = Ret IMAGE_TEXTURE_MISSING_RGBA).
  { unfold kernel_image_interp. now rewrite Z.eqb_refl. }
  rewrite H. repeat split.
Qed.

(** C3: for a tiled texture entry whose coordinate the wrap rejects, the
    dispatcher returns transparent black, which is not the missing-texture
    colour; the only calls are the texture table lookup and the wrap, so
    neither the tile map nor the image table nor the hardware read is
    reached. *)
Theorem interp_wrap_rejected (env : Env) (tex_id : Z) (uv uv' : float2)
        (duv : differential2) :
  tex_id <> NONE ->
  tex_tile_descriptor_offset (env _ (image_textures_fetch tex_id))
  <> UINT_MAX ->
  env _ (image_tile_wrap
           (tex_extension (env _ (image_textures_fetch tex_id))) uv)
  = (false, uv') ->
  let p := kernel_image_interp NONE tex_id uv duv in
  eval env p = zero_float4
  /\ zero_float4 <> IMAGE_TEXTURE_MISSING_RGBA
  /\ trace env p
     = [call (image_textures_fetch tex_id);
        call (image_tile_wrap
                (tex_extension (env _ (image_textures_fetch tex_id))) uv)]
  /\ calls_to TileMap env p = false
  /\ calls_to ImageInfoTable env p = false
  /\ calls_to HardwareRead env p = false.
Proof.
  intros Hne Htiled Hwrap p. subst p.
  rewrite interp_not_none by assumption.
  unfold calls_to. rewrite eval_bind, trace_bind.
  unfold kernel_image_interp_resolve. simpl.
  destruct (Z.eqb_spec
              (tex_tile_descriptor_offset
                 (env _ (image_textures_fetch tex_id))) UINT_MAX)
    as [E | _]; [contradiction |].
  simpl. rewrite Hwrap. simpl. repeat split. discriminate.
Qed.

(** C2: for a tiled texture entry whose coordinate the wrap accepts, the
    result is fixed by the state of the tile descriptor the tile map
    returns: load failed gives the missing-texture colour, not loaded
    gives the average colour stored in the texture entry, and loaded into
    a slot gives the sampling of the image info at that slot at the
    tile-local coordinate divided by that image's width and height.  In
    the first two cases no image info is fetched and nothing is read. *)
Theorem interp_tile_states (env : Env) (tex_id : Z) (uv uv' xy : float2)
        (duv : differential2) (td : KernelTileDescriptor) :
  tex_id <> NONE ->
  let tex := env _ (image_textures_fetch tex_id) in
  tex_tile_descriptor_offset tex <> UINT_MAX ->
  env _ (image_tile_wrap (tex_extension tex) uv) = (true, uv') ->
  env _ (image_tile_map tex uv' duv zero_float2) = (td, xy) ->
  let p := kernel_image_interp NONE tex_id uv duv in
  match td with
  | KERNEL_TILE_LOAD_FAILED =>
      eval env p = IMAGE_TEXTURE_MISSING_RGBA
      /\ calls_to ImageInfoTable env p = false
      /\ calls_to HardwareRead env p = false
  | KERNEL_TILE_NOT_LOADED =>
      eval env p = tex_average_color tex
      /\ calls_to ImageInfoTable env p = false
      /\ calls_to HardwareRead env p = false
  | KERNEL_TILE_LOADED slot =>
      let info := env _ (image_info_fetch slot) in
      eval env p
      = eval env
          (kernel_image_interp_sample
             info
             (make_float2
                (fdiv (f2x xy) (int_to_float (info_width info)))
                (fdiv (f2y xy) (int_to_float (info_height info)))))
  end.
Proof.
  intros Hne tex Htiled Hwrap Hmap p. subst p.
  rewrite interp_not_none by assumption.
  unfold calls_to. rewrite eval_bind, trace_bind.
  unfold kernel_image_interp_resolve. simpl. fold tex.
  destruct (Z.eqb_spec (tex_tile_descriptor_offset tex) UINT_MAX)
    as [E | _]; [contradiction |].
  simpl. rewrite Hwrap. simpl. rewrite Hmap.
  destruct td as [slot | |]; simpl; auto.
Qed.

Lemma interp_resolved (env : Env) tex_id uv duv info uv' :
  tex_id <> NONE ->
  eval env (kernel_image_interp_resolve NONE tex_id uv duv)
  = inr (info, uv') ->
  eval env (kernel_image_interp NONE tex_id uv duv)
  = eval env (kernel_image_interp_sample info uv').
Proof.
  intros Hne Hres. rewrite interp_not_none by assumption.
  rewrite eval_bind, Hres. reflexivity.
Qed.

(** C4: when the dispatcher resolves to an image info whose data type is
    not one of the four 4-channel kinds, it computes one scalar [f], by
    the bicubic reconstruction at scalar type when the interpolation is
    cubic or smart and by a single hardware read at the coordinate
    otherwise, and returns [(f, f, f, 1)]. *)
Theorem interp_one_channel_broadcast (env : Env) (tex_id : Z)
        (uv uv' : float2) (duv : differential2) (info : KernelImageInfo) :
  tex_id <> NONE ->
  eval env (kernel_image_interp_resolve NONE tex_id uv duv)
  = inr (info, uv') ->
  is_four_channel (info_data_type info) = false ->
  let read :=
    image_object_read_2D_float (info_data info) (f2x uv') (f2y uv') in
  let f :=
    if is_cubic_or_smart (info_interpolation info)
    then eval env (kernel_image_interp_bicubic (T := float) info uv')
    else env _ read in
  eval env (kernel_image_interp NONE tex_id uv duv) = make_float4 f f f 1
  /\ eval env (kernel_image_interp_sample info uv') = make_float4 f f f 1
  /\ trace env (kernel_image_interp_sample info uv')
     = (if is_cubic_or_smart (info_interpolation info)
        then trace env (kernel_image_interp_bicubic (T := float) info uv')
        else [call read]).
Proof.
  intros Hne Hres H1 read f.
  rewrite (interp_resolved env _ _ _ _ _ Hne Hres).
  unfold kernel_image_interp_sample. rewrite H1.
  rewrite eval_bind, trace_bind. subst f read.
  destruct (is_cubic_or_smart (info_interpolation info)); simpl;
    rewrite ?app_nil_r; auto.
Qed.

(** C8: the UDIM entry point first asks the UDIM index.  When the index
    answers NONE the result is the missing-texture colour and the UDIM
    index is the only collaborator called (no texture table, tile map or
    image table); otherwise the result is that of the base dispatcher
    for the texture id and the coordinate the index returned. *)
Theorem interp_with_udim_dispatch (env : Env) (image_id : Z) (uv : float2)
        (duv : differential2) :
  let p := kernel_image_interp_with_udim NONE image_id uv duv in
  let tex_id := fst (env _ (image_udim_map image_id uv)) in
  let uv' := snd (env _ (image_udim_map image_id uv)) in
  if (tex_id =? NONE)%Z then
    eval env p = IMAGE_TEXTURE_MISSING_RGBA
    /\ trace env p = [call (image_udim_map image_id uv)]
  else
    eval env p = eval env (kernel_image_interp NONE tex_id uv' duv)
    /\ trace env p
       = call (image_udim_map image_id uv)
         :: trace env (kernel_image_interp NONE tex_id uv' duv).
Proof.
  intros p tex_id uv'. subst p tex_id uv'.
  unfold kernel_image_interp_with_udim. simpl.
  destruct (env _ (image_udim_map image_id uv)) as [t u]. simpl.
  destruct (t =? NONE)%Z; split; reflexivity.
Qed.
End Dispatcher.

(** ** The bicubic reconstruction *)

Section Bicubic.
Context {R : Rounding}.

Lemma bicubic_generic {T : Type} {V : ImageValue T} (env : Env)
      (info : KernelImageInfo) (uv : float2) :
  let W := info_width info in
  let H := info_height info in
  let tex := info_data info in
  let u := f2x uv in
  let v := f2y uv in
  eval env (kernel_image_interp_bicubic info uv)
  = bicubic_formula
      (fun x y => env _ (ccl_gpu_image_object_read_2D tex x y)) W H u v
  /\ trace env (kernel_image_interp_bicubic info uv)
     = [call (ccl_gpu_image_object_read_2D tex (tap0 u W) (tap0 v H));
        call (ccl_gpu_image_object_read_2D tex (tap1 u W) (tap0 v H));
        call (ccl_gpu_image_object_read_2D tex (tap0 u W) (tap1 v H));
        call (ccl_gpu_image_object_read_2D tex (tap1 u W) (tap1 v H))].
Proof. split; reflexivity. Qed.

(** C1: for an image info of extents [W], [H] and a coordinate [(u, v)],
    kernel_image_interp_bicubic forms [x = u*W - 0.5], [y = v*H - 0.5],
    their floors and fractional parts, the tap coordinates
    [(p + h0(f) + 0.5) / extent] and [(p + h1(f) + 0.5) / extent] on each
    axis, makes exactly the four reads at (x0,y0), (x1,y0), (x0,y1),
    (x1,y1) and returns
    [g0(fy)*(g0(fx)*S(x0,y0) + g1(fx)*S(x1,y0))
     + g1(fy)*(g0(fx)*S(x0,y1) + g1(fx)*S(x1,y1))],
    at the scalar and at the 4-channel type alike. *)
Theorem bicubic_is_four_tap_formula (env : Env) (info : KernelImageInfo)
        (uv : float2) :
  let W := info_width info in
  let H := info_height info in
  let tex := info_data info in
  let u := f2x uv in
  let v := f2y uv in
  (eval env (kernel_image_interp_bicubic (T := float) info uv)
   = bicubic_formula
       (fun x y => env _ (image_object_read_2D_float tex x y)) W H u v
   /\ trace env (kernel_image_interp_bicubic (T := float) info uv)
      = [call (image_object_read_2D_float tex (tap0 u W) (tap0 v H));
         call (image_object_read_2D_float tex (tap1 u W) (tap0 v H));
         call (image_object_read_2D_float tex (tap0 u W) (tap1 v H));
         call (image_object_read_2D_float tex (tap1 u W) (tap1 v H))])
  /\
  (eval env (kernel_image_interp_bicubic (T := float4) info uv)
   = bicubic_formula
       (fun x y => env _ (image_object_read_2D_float4 tex x y)) W H u v
   /\ trace env (kernel_image_interp_bicubic (T := float4) info uv)
      = [call (image_object_read_2D_float4 tex (tap0 u W) (tap0 v H));
         call (image_object_read_2D_float4 tex (tap1 u W) (tap0 v H));
         call (image_object_read_2D_float4 tex (tap0 u W) (tap1 v H));
         call (image_object_read_2D_float4 tex (tap1 u W) (tap1 v H))]).
Proof.
  split.
  - exact (bicubic_generic (V := float_value) env info uv).
  - exact (bicubic_generic (V := float4_value) env info uv).
Qed.
End Bicubic.

(** ** Determinism *)

Lemma eval_ext {A : Type} (env1 env2 : Env) (p : Prog A) :
  (forall (X : Type) (e : Event X), env1 X e = env2 X e) ->
  eval env1 p = eval env2 p.
Proof.
  intros Hext. induction p as [a | X e k IH]; simpl.
  - reflexivity.
  - rewrite Hext. apply IH.
Qed.

(** Two runs of one program, on collaborators that do not write and that
    answer alike, return the same value, and each leaves the shared state as
    it found it.  This holds of every program of [Prog]: a program is a
    function of the answers it gets. *)
Lemma run_deterministic {S1 S2 A : Type}
      (h1 : Handler S1) (h2 : Handler S2) (s1 : S1) (s2 : S2) (p : Prog A) :
  read_only h1 -> read_only h2 ->
  (forall (X : Type) (e : Event X), fst (h1 X e s1) = fst (h2 X e s2)) ->
  fst (run h1 p s1) = fst (run h2 p s2)
  /\ snd (run h1 p s1) = s1 /\ snd (run h2 p s2) = s2.
Proof.
  intros H1 H2 Hsame.
  rewrite (run_read_only h1 _ s1 H1), (run_read_only h2 _ s2 H2). simpl.
  repeat split. apply eval_ext. exact Hsame.
Qed.

(* ================================================================== *)
(** ** Powers of two and the binary logarithm *)

Lemma pow2_pos (e : Z) : 0 < 2 ^ e.
Proof. apply Qpower_0_lt. reflexivity. Qed.

Lemma pow2_add (a b : Z) : 2 ^ (a + b) == 2 ^ a * 2 ^ b.
Proof. apply Qpower_plus. discriminate. Qed.

Lemma pow2_Z (k : Z) : (0 <= k)%Z -> 2 ^ k == inject_Z (2 ^ k).
Proof. intros Hk. symmetry. exact (Zpower_Qpower 2 k Hk). Qed.

Lemma pow2_opp (k : Z) : 2 ^ (- k) * 2 ^ k == 1.
Proof.
  rewrite <- pow2_add. replace (- k + k)%Z with 0%Z by lia. reflexivity.
Qed.

Lemma pow2_le (a b : Z) : (a <= b)%Z -> 2 ^ a <= 2 ^ b.
Proof. intros H. apply Qpower_le_compat_l; [exact H | discriminate]. Qed.

Lemma ilog2_spec (x : Q) :
  0 < x -> 2 ^ ilog2 x <= x /\ x < 2 ^ (ilog2 x + 1).
Proof.
  intros Hx. unfold ilog2.
  destruct (Qle_bool 1 x) eqn:E.
  - apply Qle_bool_iff in E.
    assert (Hn : (1 <= Qfloor x)%Z).
    { change 1%Z with (Qfloor 1). now apply Qfloor_resp_le. }
    destruct (Z.log2_spec (Qfloor x)) as [Hlo Hhi]; [lia |].
    pose proof (Z.log2_nonneg (Qfloor x)) as Hk.
    rewrite !pow2_Z by lia. split.
    + apply Qle_trans with (inject_Z (Qfloor x)).
      * rewrite <- Zle_Qle. exact Hlo.
      * apply Qfloor_le.
    + apply Qlt_le_trans with (inject_Z (Qfloor x + 1)).
      * apply Qlt_floor.
      * rewrite <- Zle_Qle.
        replace (Z.log2 (Qfloor x) + 1)%Z with (Z.succ (Z.log2 (Qfloor x))) by lia.
        lia.
  - assert (Hx1 : x < 1).
    { apply Qnot_le_lt. intros H. apply Qle_bool_iff in H. congruence. }
    set (t := / x).
    assert (Ht : 1 < t).
    { unfold t. apply Qlt_shift_inv_l; [exact Hx | now rewrite Qmult_1_l]. }
    assert (Hxt : x * t == 1).
    { unfold t. apply Qmult_inv_r. intros H. rewrite H in Hx. discriminate. }
    set (m := Qceiling t).
    assert (Hm : (1 < m)%Z).
    { rewrite Zlt_Qlt. apply Qlt_le_trans with t; [exact Ht | apply Qle_ceiling]. }
    destruct (Z.log2_up_spec m Hm) as [Hlo Hhi].
    pose proof (Z.log2_up_pos m Hm) as Hj.
    set (j := Z.log2_up m) in *.
    assert (Hup : t <= 2 ^ j).
    { rewrite pow2_Z by lia. apply Qle_trans with (inject_Z m).
      - apply Qle_ceiling.
      - now rewrite <- Zle_Qle. }
    assert (Hdn : 2 ^ (j - 1) < t).
    { rewrite pow2_Z by lia. apply Qle_lt_trans with (inject_Z (m - 1)).
      - rewrite <- Zle_Qle. replace (j - 1)%Z with (Z.pred j) by lia. lia.
      - apply Qceiling_lt. }
    pose proof (pow2_opp j) as Hj1.
    pose proof (pow2_opp (j - 1)) as Hj2.
    replace (- j + 1)%Z with (- (j - 1))%Z by lia.
    pose proof (pow2_pos (- j)) as P1.
    pose proof (pow2_pos (- (j - 1))) as P2.
    pose proof (pow2_pos j) as P3.
    pose proof (pow2_pos (j - 1)) as P4.
    split; nra.
Qed.

(** ** Rounding to binary32 *)

Lemma rne_error (y : Q) :
  y - (1 # 2) <= inject_Z (rne y) /\ inject_Z (rne y) <= y + (1 # 2).
Proof.
  unfold rne.
  pose proof (Qfloor_le y) as Hlo.
  pose proof (Qlt_floor y) as Hhi.
  rewrite inject_Z_plus in Hhi. change (inject_Z 1) with 1 in Hhi.
  destruct (Qcompare (y - inject_Z (Qfloor y)) (1 # 2)) eqn:E.
  - apply Qeq_alt in E.
    destruct (Z.even (Qfloor y)); rewrite ?inject_Z_plus;
      change (inject_Z 1) with 1; split; lra.
  - apply Qlt_alt in E. split; lra.
  - apply Qgt_alt in E. rewrite inject_Z_plus.
    change (inject_Z 1) with 1. split; lra.
Qed.

Lemma rne_le_Z (y : Q) (n : Z) : y <= inject_Z n -> (rne y <= n)%Z.
Proof.
  intros H. destruct (rne_error y) as [_ Hhi].
  assert (L : inject_Z (rne y) < inject_Z (n + 1)).
  { rewrite inject_Z_plus. change (inject_Z 1) with 1. lra. }
  rewrite <- Zlt_Qlt in L. lia.
Qed.

Lemma rne_ge_Z (y : Q) (n : Z) : inject_Z n <= y -> (n <= rne y)%Z.
Proof.
  intros H. destruct (rne_error y) as [Hlo _].
  assert (L : inject_Z (n - 1) < inject_Z (rne y)).
  { unfold Z.sub. rewrite inject_Z_plus, inject_Z_opp.
    change (inject_Z 1) with 1. lra. }
  rewrite <- Zlt_Qlt in L. lia.
Qed.

Lemma rne_Z (y : Q) (n : Z) : y == inject_Z n -> rne y = n.
Proof.
  intros H. apply Z.le_antisymm.
  - apply rne_le_Z. rewrite H. apply Qle_refl.
  - apply rne_ge_Z. rewrite H. apply Qle_refl.
Qed.

Lemma round32_eq (x y : Q) : x == y -> round32 x = round32 y.
Proof. intros H. unfold round32. now rewrite (Qred_complete x y H). Qed.

Lemma round32_0 (x : Q) : x == 0 -> round32 x = 0.
Proof. intros H. rewrite (round32_eq x 0 H). reflexivity. Qed.

(** The shape of a rounded value: an integer multiple of the unit in the
    last place. *)
Lemma round32_shape (x : Q) :
  ~ x == 0 ->
  let e := ulp_exp (Qred x) in
  round32 x == inject_Z (rne (Qred x / 2 ^ e)) * 2 ^ e.
Proof.
  intros Hx e. unfold round32, round32_canon.
  destruct (Qeq_bool (Qred x) 0) eqn:E.
  - apply Qeq_bool_iff in E. rewrite Qred_correct in E. contradiction.
  - fold e. apply Qred_correct.
Qed.

Lemma ulp_exp_spec (x : Q) :
  ~ x == 0 ->
  let lg := ilog2 (Qabs (Qred x)) in
  2 ^ lg <= Qabs x /\ Qabs x < 2 ^ (lg + 1)
  /\ ulp_exp (Qred x) = Z.max (lg - 23) (-149).
Proof.
  intros Hx lg.
  assert (Hpos : 0 < Qabs (Qred x)).
  { rewrite Qred_correct. apply Qabs_case; intros H.
    - apply Qle_lteq in H. destruct H as [H | H]; [exact H |].
      exfalso. apply Hx. now symmetry.
    - apply Qle_lteq in H. destruct H as [H | H]; [lra |]. contradiction. }
  destruct (ilog2_spec _ Hpos) as [Hlo Hhi]. fold lg in Hlo, Hhi.
  rewrite Qred_correct in Hlo, Hhi. repeat split; assumption.
Qed.

(** The standard model of rounding: a relative error of at most 2^-24,
    or, in the subnormal range, an absolute error of at most 2^-150. *)
Lemma round32_error (x : Q) :
  Qabs (round32 x - x) <= 2 ^ (-24) * Qabs x + 2 ^ (-150).
Proof.
  destruct (Qeq_dec x 0) as [Hx | Hx].
  - rewrite (round32_0 x Hx), Hx. vm_compute. discriminate.
  - rewrite (round32_shape x Hx).
    destruct (ulp_exp_spec x Hx) as (Hlo & _ & He).
    set (lg := ilog2 (Qabs (Qred x))) in *.
    set (e := ulp_exp (Qred x)) in *.
    destruct (rne_error (Qred x / 2 ^ e)) as [Rlo Rhi].
    set (m := inject_Z (rne (Qred x / 2 ^ e))) in *.
    pose proof (pow2_pos e) as Pe.
    assert (Hdiv : Qred x / 2 ^ e * 2 ^ e == x).
    { rewrite Qred_correct. field. lra. }
    set (y := Qred x / 2 ^ e) in *.
    assert (Herr : Qabs (m * 2 ^ e - x) <= (1 # 2) * 2 ^ e).
    { apply Qabs_Qle_condition. split; nra. }
    apply Qle_trans with (1 := Herr).
    pose proof (Qabs_nonneg x) as Ha.
    pose proof (pow2_pos (-24)) as P24.
    assert (Hhalf : (1 # 2) * 2 ^ e == 2 ^ (e - 1)).
    { replace (e - 1)%Z with (e + -1)%Z by lia. rewrite pow2_add.
      change (2 ^ (-1)) with (1 # 2). ring. }
    rewrite Hhalf.
    destruct (Z.max_spec (lg - 23) (-149)) as [[Hc Hm] | [Hc Hm]].
    + assert (E1 : e = (-149)%Z) by lia. rewrite E1.
      change (2 ^ (-149 - 1)) with (2 ^ (-150)). nra.
    + assert (E1 : (e - 1 = -24 + lg)%Z) by lia. rewrite E1, pow2_add.
      pose proof (pow2_pos (-150)). nra.
Qed.

Lemma pow2_le_inv (a b : Z) : 2 ^ a <= 2 ^ b -> (a <= b)%Z.
Proof. intros H. apply (Qpower_le_compat_l_inv 2); [exact H | reflexivity]. Qed.

Lemma pow2_lt_inv (a b : Z) : 2 ^ a < 2 ^ b -> (a < b)%Z.
Proof. intros H. apply (Qpower_lt_compat_l_inv 2); [exact H | reflexivity]. Qed.

(** A multiple of the unit in the last place is not changed by rounding. *)
Lemma round32_grid (x : Q) (k : Z) :
  ~ x == 0 -> x == inject_Z k * 2 ^ ulp_exp (Qred x) -> round32 x == x.
Proof.
  intros Hx Hk. rewrite (round32_shape x Hx).
  set (e := ulp_exp (Qred x)) in *.
  pose proof (pow2_pos e) as Pe.
  assert (Hq : Qred x / 2 ^ e == inject_Z k).
  { rewrite Qred_correct, Hk. field. lra. }
  rewrite (rne_Z _ _ Hq). symmetry. exact Hk.
Qed.

Lemma round32_unit_interval (y : Q) :
  0 <= y -> y <= 1 -> 0 <= round32 y /\ round32 y <= 1.
Proof.
  intros H0 H1. destruct (Qeq_dec y 0) as [Hy | Hy].
  - rewrite (round32_0 y Hy). split; lra.
  - rewrite (round32_shape y Hy).
    destruct (ulp_exp_spec y Hy) as (Hlo & _ & He).
    set (lg := ilog2 (Qabs (Qred y))) in *.
    set (e := ulp_exp (Qred y)) in *.
    rewrite (Qabs_pos y H0) in Hlo.
    assert (Hlg : (lg <= 0)%Z).
    { apply pow2_le_inv. change (2 ^ 0) with 1. lra. }
    assert (He0 : (e <= 0)%Z) by lia.
    pose proof (pow2_pos e) as Pe.
    pose proof (pow2_opp e) as Po.
    rewrite (pow2_Z (- e)) in Po by lia.
    assert (Hup : (rne (Qred y / 2 ^ e) <= 2 ^ (- e))%Z).
    { apply rne_le_Z. apply Qle_shift_div_r; [exact Pe |].
      rewrite Qred_correct, Po. exact H1. }
    assert (Hdn : (0 <= rne (Qred y / 2 ^ e))%Z).
    { apply rne_ge_Z. apply Qle_shift_div_l; [exact Pe |].
      rewrite Qred_correct. change (inject_Z 0) with 0. lra. }
    rewrite Zle_Qle in Hup, Hdn. change (inject_Z 0) with 0 in Hdn.
    set (m := inject_Z (rne (Qred y / 2 ^ e))) in *.
    split; nra.
Qed.

Lemma Qabs_inject_Z (n : Z) : Qabs (inject_Z n) == inject_Z (Z.abs n).
Proof. unfold Qabs, inject_Z. reflexivity. Qed.

(** Integers of magnitude up to 2^24 are binary32 numbers. *)
Lemma round32_int (n : Z) :
  (Z.abs n <= 2 ^ 24)%Z -> round32 (inject_Z n) == inject_Z n.
Proof.
  intros Hn. change (2 ^ 24)%Z with 16777216%Z in Hn.
  destruct (Z.eq_dec n 0) as [-> | Hn0]; [reflexivity |].
  destruct (Z.eq_dec (Z.abs n) 16777216) as [Hmax | Hmax].
  { assert (Hc : n = 16777216%Z \/ n = (-16777216)%Z) by lia.
    destruct Hc as [-> | ->]; reflexivity. }
  assert (Hx : ~ inject_Z n == 0).
  { intros H. apply Hn0. unfold Qeq in H. simpl in H. lia. }
  destruct (ulp_exp_spec _ Hx) as (Hlo & Hhi & He).
  set (lg := ilog2 (Qabs (Qred (inject_Z n)))) in *.
  set (e := ulp_exp (Qred (inject_Z n))) in *.
  rewrite Qabs_inject_Z in Hlo, Hhi.
  assert (Hlg : (lg < 24)%Z).
  { apply pow2_lt_inv. apply Qle_lt_trans with (1 := Hlo).
    rewrite (pow2_Z 24) by lia. rewrite <- Zlt_Qlt.
    change (2 ^ 24)%Z with 16777216%Z. lia. }
  assert (Hlg0 : (0 <= lg)%Z).
  { assert (H : (0 < lg + 1)%Z); [ | lia].
    apply pow2_lt_inv. apply Qle_lt_trans with (2 := Hhi).
    change (2 ^ 0) with (inject_Z 1). rewrite <- Zle_Qle. lia. }
  assert (He0 : (e <= 0)%Z) by lia.
  apply (round32_grid _ (n * 2 ^ (- e))); [exact Hx |]. fold e.
  rewrite inject_Z_mult. rewrite <- (pow2_Z (- e)) by lia.
  rewrite <- Qmult_assoc, pow2_opp. ring.
Qed.

(** A binary32 number of magnitude at least 2^24 is an integer. *)
Lemma round32_large_is_int (x : Q) :
  round32 x == x -> 2 ^ 24 <= Qabs x -> exists n : Z, x == inject_Z n.
Proof.
  intros Hr Hbig.
  assert (Hx : ~ x == 0).
  { intros H. rewrite H in Hbig. vm_compute in Hbig. now apply Hbig. }
  rewrite (round32_shape x Hx) in Hr.
  destruct (ulp_exp_spec x Hx) as (_ & Hhi & He).
  set (lg := ilog2 (Qabs (Qred x))) in *.
  set (e := ulp_exp (Qred x)) in *.
  assert (Hlg : (24 < lg + 1)%Z).
  { apply pow2_lt_inv. apply Qle_lt_trans with (1 := Hbig). exact Hhi. }
  assert (He0 : (0 <= e)%Z) by lia.
  exists (rne (Qred x / 2 ^ e) * 2 ^ e)%Z.
  rewrite inject_Z_mult, <- (pow2_Z e) by lia. symmetry. exact Hr.
Qed.

(** ** Forward error analysis *)


Section ErrorAnalysis.
Context {R : Rounding}.
Hypothesis Hstd : standard_model R.

Lemma approx_exact (v : Q) : approx v v 0.
Proof. unfold approx. split; lra. Qed.

Lemma approx_weaken (v c E E' : Q) :
  approx v c E -> Qle_bool E E' = true -> approx v c E'.
Proof.
  unfold approx. intros [H1 H2] HE. apply Qle_bool_iff in HE. split; lra.
Qed.

Lemma approx_rnd (x c E M : Q) :
  approx x c E -> - M <= c <= M -> 0 <= E ->
  approx (rnd x) c (E + rnd_err (M + E)).
Proof.
  unfold approx, rnd_err. intros [H1 H2] [H3 H4] HE.
  pose proof (Hstd x) as Hx.
  assert (Hax : Qabs x <= M + E).
  { apply Qabs_Qle_condition. split; lra. }
  assert (P1 : 0 < 2 ^ (-24)) by reflexivity.
  assert (Hb : Qabs (rnd x - x) <= 2 ^ (-24) * (M + E) + 2 ^ (-150)).
  { apply Qle_trans with (1 := Hx). 
    apply Qplus_le_l. apply Qmult_le_l; assumption. }
  apply Qabs_Qle_condition in Hb. destruct Hb as [Hb1 Hb2].
  split; lra.
Qed.

Lemma approx_fadd (a b ca cb Ea Eb M : Q) :
  approx a ca Ea -> approx b cb Eb -> - M <= ca + cb <= M ->
  0 <= Ea -> 0 <= Eb ->
  approx (fadd a b) (ca + cb) (Ea + Eb + rnd_err (M + (Ea + Eb))).
Proof.
  intros Ha Hb HM H0a H0b. unfold fadd.
  apply approx_rnd; [ | exact HM | lra].
  unfold approx in *. destruct Ha, Hb. split; lra.
Qed.

Lemma approx_fsub (a b ca cb Ea Eb M : Q) :
  approx a ca Ea -> approx b cb Eb -> - M <= ca - cb <= M ->
  0 <= Ea -> 0 <= Eb ->
  approx (fsub a b) (ca - cb) (Ea + Eb + rnd_err (M + (Ea + Eb))).
Proof.
  intros Ha Hb HM H0a H0b. unfold fsub.
  apply approx_rnd; [ | exact HM | lra].
  unfold approx in *. destruct Ha, Hb. split; lra.
Qed.

Lemma approx_fneg (a ca Ea : Q) : approx a ca Ea -> approx (fneg a) (- ca) Ea.
Proof. unfold approx, fneg. intros [H1 H2]. split; lra. Qed.

Lemma approx_fmul (a b ca cb Ea Eb Ma Mb : Q) :
  approx a ca Ea -> approx b cb Eb ->
  - Ma <= ca <= Ma -> - Mb <= cb <= Mb ->
  0 <= Ea -> 0 <= Eb ->
  approx (fmul a b) (ca * cb)
         (Ma * Eb + Mb * Ea + Ea * Eb
          + rnd_err (Ma * Mb + (Ma * Eb + Mb * Ea + Ea * Eb))).
Proof.
  intros Ha Hb HMa HMb H0a H0b. unfold fmul.
  assert (HMa0 : 0 <= Ma) by lra.
  assert (HMb0 : 0 <= Mb) by lra.
  apply approx_rnd.
  - unfold approx in *. destruct Ha as [A1 A2], Hb as [B1 B2].
    set (da := a - ca) in *. set (db := b - cb) in *.
    assert (Hda : - Ea <= da <= Ea) by (unfold da; lra).
    assert (Hdb : - Eb <= db <= Eb) by (unfold db; lra).
    assert (Eq1 : a * b == ca * cb + ca * db + cb * da + da * db)
      by (unfold da, db; ring).
    rewrite Eq1.
    assert (T1 : - (Ma * Eb) <= ca * db <= Ma * Eb) by (split; nra).
    assert (T2 : - (Mb * Ea) <= cb * da <= Mb * Ea) by (split; nra).
    assert (T3 : - (Ea * Eb) <= da * db <= Ea * Eb) by (split; nra).
    split; lra.
  - split; nra.
  - nra.
Qed.
End ErrorAnalysis.

(** ** The cubic B-spline weights *)

Lemma approx_eq (v c c' E : Q) : c == c' -> approx v c E -> approx v c' E.
Proof. unfold approx. intros Hc [H1 H2]. rewrite <- Hc. split; assumption. Qed.

Ltac closed_le := apply Qle_bool_iff; vm_compute; reflexivity.

(** Replace the error term of [H] by the next multiple of 10^-10. *)
Ltac tighten H :=
  match type of H with
  | approx ?v ?c ?E =>
      let E' := eval vm_compute in
                (Qred (inject_Z (Qceiling (E * 10000000000)) / 10000000000)) in
      apply (approx_weaken v c E E') in H; [ | vm_compute; reflexivity ]
  end.

Ltac bound := first [ lra | split; nra | nra | closed_le ].

(** One floating-point operation on two approximated operands; [Ma], [Mb]
    and [M] bound the exact operands or the exact result. *)
Ltac step_mul Hstd A B Ma Mb T :=
  pose proof (approx_fmul Hstd _ _ _ _ _ _ Ma Mb A B) as T;
  specialize (T ltac:(bound) ltac:(bound) ltac:(bound) ltac:(bound));
  tighten T.
Ltac step_add Hstd A B M T :=
  pose proof (approx_fadd Hstd _ _ _ _ _ _ M A B) as T;
  specialize (T ltac:(bound) ltac:(bound) ltac:(bound));
  tighten T.
Ltac step_sub Hstd A B M T :=
  pose proof (approx_fsub Hstd _ _ _ _ _ _ M A B) as T;
  specialize (T ltac:(bound) ltac:(bound) ltac:(bound));
  tighten T.

Ltac unfold_exact :=
  unfold cubic_g0, cubic_g1, cubic_w0, cubic_w1, cubic_w2, cubic_w3,
    fmul, fadd, fsub, fdiv, fneg, exact, rnd;
  change (1 / 6) with (1 # 6).

Ltac finish T :=
  eapply approx_weaken;
  [ eapply approx_eq; [ | exact T ] | vm_compute; reflexivity ];
  unfold_exact; ring.

Lemma approx_abs (v c E : Q) : approx v c E -> Qabs (v - c) <= E.
Proof. unfold approx. intros [H1 H2]. apply Qabs_Qle_condition. split; lra. Qed.

(** Partition of unity in exact arithmetic. *)
Lemma exact_partition (a : Q) :
  @cubic_w0 exact a + @cubic_w1 exact a + @cubic_w2 exact a
  + @cubic_w3 exact a == 1.
Proof. unfold_exact. ring. Qed.

Lemma exact_basis_nonneg (a : Q) :
  0 <= a -> a < 1 ->
  0 <= @cubic_w0 exact a /\ 0 <= @cubic_w1 exact a
  /\ 0 <= @cubic_w2 exact a /\ 0 <= @cubic_w3 exact a.
Proof.
  intros Ha0 Ha1. unfold_exact.
  assert (Hsq : 0 <= a * a <= a) by (split; nra).
  assert (Hb : 0 <= (1 - a) * (1 - a)) by nra.
  assert (H0 : 0 <= (1 - a) * ((1 - a) * (1 - a))) by nra.
  assert (H1 : 0 <= (1 - a) * (1 + a - a * a)) by nra.
  assert (H2 : 0 <= a * a * (1 - a)) by nra.
  assert (H3 : 0 <= a * a * a) by nra.
  repeat split; nra.
Qed.

Section Basis.
Context {R : Rounding}.
Hypothesis Hstd : standard_model R.
Variable a : Q.
Hypothesis Ha0 : 0 <= a.
Hypothesis Ha1 : a < 1.

Lemma sixth_approx : approx (fdiv 1 6) (1 # 6) (1 # 100000000).
Proof.
  pose proof (approx_rnd Hstd (1 / 6) (1 # 6) 0 (1 # 6)) as H.
  assert (A : approx (1 / 6) (1 # 6) 0).
  { unfold approx. change (1 / 6) with (1 # 6). split; lra. }
  specialize (H A ltac:(lra) ltac:(lra)).
  eapply approx_weaken; [exact H | vm_compute; reflexivity].
Qed.

Lemma w0_approx : approx (cubic_w0 a) (@cubic_w0 exact a) (3 # 10000000).
Proof.
  pose proof (approx_exact a) as A.
  step_add Hstd (approx_fneg _ _ _ A) (approx_exact 3) 3 T1.
  step_mul Hstd A T1 1 3 T2.
  step_sub Hstd T2 (approx_exact 3) 3 T3.
  step_mul Hstd A T3 1 3 T4.
  step_add Hstd T4 (approx_exact 1) 4 T5.
  step_mul Hstd sixth_approx T5 (1 # 6) 4 T6.
  finish T6.
Qed.

Lemma w1_approx : approx (cubic_w1 a) (@cubic_w1 exact a) (6 # 10000000).
Proof.
  pose proof (approx_exact a) as A.
  assert (Hsq : 0 <= a * a <= 1) by (split; nra).
  step_mul Hstd A A 1 1 T1.
  step_mul Hstd (approx_exact 3) A 3 1 T2.
  step_sub Hstd T2 (approx_exact 6) 6 T3.
  step_mul Hstd T1 T3 1 6 T4.
  step_add Hstd T4 (approx_exact 4) 10 T5.
  step_mul Hstd sixth_approx T5 (1 # 6) 10 T6.
  finish T6.
Qed.

Lemma w2_approx : approx (cubic_w2 a) (@cubic_w2 exact a) (6 # 10000000).
Proof.
  pose proof (approx_exact a) as A.
  step_mul Hstd (approx_fneg _ _ _ (approx_exact 3)) A 3 1 T1.
  step_add Hstd T1 (approx_exact 3) 3 T2.
  step_mul Hstd A T2 1 3 T3.
  step_add Hstd T3 (approx_exact 3) 6 T4.
  step_mul Hstd A T4 1 6 T5.
  step_add Hstd T5 (approx_exact 1) 7 T6.
  step_mul Hstd sixth_approx T6 (1 # 6) 7 T7.
  finish T7.
Qed.

Lemma w3_approx : approx (cubic_w3 a) (@cubic_w3 exact a) (1 # 10000000).
Proof.
  pose proof (approx_exact a) as A.
  assert (Hsq : 0 <= a * a <= 1) by (split; nra).
  step_mul Hstd A A 1 1 T1.
  step_mul Hstd T1 A 1 1 T2.
  step_mul Hstd sixth_approx T2 (1 # 6) 1 T3.
  finish T3.
Qed.

(** Summing the four weights left to right. *)
Lemma partition_approx :
  approx (fadd (fadd (fadd (cubic_w0 a) (cubic_w1 a)) (cubic_w2 a))
               (cubic_w3 a)) 1 (2 # 1000000).
Proof.
  destruct (exact_basis_nonneg a Ha0 Ha1) as (N0 & N1 & N2 & N3).
  pose proof (exact_partition a) as P.
  step_add Hstd w0_approx w1_approx 1 T1.
  step_add Hstd T1 w2_approx 2 T2.
  step_add Hstd T2 w3_approx 2 T3.
  eapply approx_weaken;
    [ eapply approx_eq; [ | exact T3 ] | vm_compute; reflexivity ].
  apply exact_partition.
Qed.

(** Summing the two amplitudes. *)
Lemma amplitude_approx :
  approx (fadd (cubic_g0 a) (cubic_g1 a)) 1 (2 # 1000000).
Proof.
  destruct (exact_basis_nonneg a Ha0 Ha1) as (N0 & N1 & N2 & N3).
  pose proof (exact_partition a) as P.
  step_add Hstd w0_approx w1_approx 1 T1.
  step_add Hstd w2_approx w3_approx 1 T2.
  step_add Hstd T1 T2 2 T3.
  eapply approx_weaken;
    [ eapply approx_eq; [ | exact T3 ] | vm_compute; reflexivity ].
  rewrite <- (exact_partition a). ring.
Qed.
End Basis.

Lemma binary32_standard_model : standard_model binary32.
Proof. intros x. apply round32_error. Qed.

Lemma exact_weight_sum (a : Q) : @weight_sum exact a == 1.
Proof. unfold weight_sum. unfold_exact. ring. Qed.

Lemma exact_amplitude_sum (a : Q) : @amplitude_sum exact a == 1.
Proof. unfold amplitude_sum. unfold_exact. ring. Qed.

(** C6: for every [a] with [0 <= a < 1] the four B-spline weights add up to
    1 and so do the two amplitudes: exactly when the arithmetic is that of
    the rationals, and within 1e-5 (in fact within 2e-6) when every
    operation is rounded to binary32. *)
Theorem cubic_partition_of_unity (a : Q) :
  0 <= a -> a < 1 ->
  @weight_sum exact a == 1
  /\ @amplitude_sum exact a == 1
  /\ Qabs (@weight_sum binary32 a - 1) <= 1 # 100000
  /\ Qabs (@amplitude_sum binary32 a - 1) <= 1 # 100000.
Proof.
  intros Ha0 Ha1.
  split; [apply exact_weight_sum |]. split; [apply exact_amplitude_sum |].
  pose proof (approx_abs _ _ _
                (partition_approx binary32_standard_model a Ha0 Ha1)) as P.
  pose proof (approx_abs _ _ _
                (amplitude_approx binary32_standard_model a Ha0 Ha1)) as A.
  unfold weight_sum, amplitude_sum. split; lra.
Qed.

(** ** The fractional part *)

Lemma round32_half_ulp (x : Q) :
  ~ x == 0 ->
  Qabs (round32 x - x) <= (1 # 2) * 2 ^ ulp_exp (Qred x).
Proof.
  intros Hx. rewrite (round32_shape x Hx).
  set (e := ulp_exp (Qred x)) in *.
  destruct (rne_error (Qred x / 2 ^ e)) as [Rlo Rhi].
  set (m := inject_Z (rne (Qred x / 2 ^ e))) in *.
  pose proof (pow2_pos e) as Pe.
  assert (Hdiv : Qred x / 2 ^ e * 2 ^ e == x).
  { rewrite Qred_correct. field. lra. }
  set (y := Qred x / 2 ^ e) in *.
  apply Qabs_Qle_condition. split; nra.
Qed.

(** Rounding a number of the unit interval moves it by at most 2^-25. *)
Lemma round32_unit_error (y : Q) :
  0 <= y -> y <= 1 -> Qabs (round32 y - y) <= 2 ^ (-25).
Proof.
  intros H0 H1.
  destruct (Qeq_dec y 0) as [Hy | Hy].
  { rewrite (round32_0 y Hy), Hy. vm_compute. discriminate. }
  destruct (Qeq_dec y 1) as [Hy1 | Hy1].
  { rewrite (round32_eq y 1 Hy1), Hy1. vm_compute. discriminate. }
  apply Qle_trans with (1 := round32_half_ulp y Hy).
  destruct (ulp_exp_spec y Hy) as (Hlo & _ & He).
  set (lg := ilog2 (Qabs (Qred y))) in *.
  set (e := ulp_exp (Qred y)) in *.
  rewrite (Qabs_pos y H0) in Hlo.
  assert (Hlg : (lg < 0)%Z).
  { apply pow2_lt_inv. change (2 ^ 0) with 1.
    apply Qle_lt_trans with (1 := Hlo).
    apply Qle_lteq in H1. destruct H1 as [H1 | H1]; [exact H1 | contradiction]. }
  assert (He' : (e <= -24)%Z) by lia.
  pose proof (pow2_le e (-24) He') as Hp.
  change (2 ^ (-24)) with (1 # 16777216) in Hp.
  change (2 ^ (-25)) with (1 # 33554432). lra.
Qed.

Lemma Qle_num (x : Q) : 0 <= x <-> (0 <= Qnum x)%Z.
Proof. unfold Qle. simpl. lia. Qed.

Lemma float_to_int_nonneg (x : Q) : 0 <= x -> float_to_int x = Qfloor x.
Proof.
  intros H. apply Qle_num in H. destruct x as [n d]. simpl in *.
  unfold float_to_int. simpl. apply Z.quot_div_nonneg; lia.
Qed.

Lemma float_to_int_nonpos (x : Q) : x <= 0 -> float_to_int x = Qceiling x.
Proof.
  intros H. assert (Hn : (Qnum x <= 0)%Z).
  { unfold Qle in H. simpl in H. lia. }
  destruct x as [n d]. simpl in *.
  unfold float_to_int, Qceiling, Qfloor. simpl.
  rewrite <- (Z.quot_div_nonneg (- n) (Z.pos d)) by lia.
  rewrite Z.quot_opp_l by lia. lia.
Qed.

Lemma wrap_int_small (z : Z) :
  (- 2 ^ 31 <= z < 2 ^ 31)%Z -> wrap_int z = z.
Proof.
  intros H. unfold wrap_int.
  change (2 ^ 31)%Z with 2147483648%Z in *.
  change (2 ^ 32)%Z with 4294967296%Z.
  rewrite Z.mod_small by lia. lia.
Qed.

Lemma Qlt_bool_iff (a b : Q) : Qlt_bool a b = true <-> a < b.
Proof.
  unfold Qlt_bool. rewrite negb_true_iff. split; intros H.
  - apply Qnot_le_lt. intros Hle. apply Qle_bool_iff in Hle. congruence.
  - destruct (Qle_bool b a) eqn:E; [ | reflexivity].
    apply Qle_bool_iff in E. lra.
Qed.

Lemma Qlt_bool_false (a b : Q) : Qlt_bool a b = false <-> b <= a.
Proof.
  unfold Qlt_bool. rewrite negb_false_iff. apply Qle_bool_iff.
Qed.

(** The integer [frac] stores and the difference it rounds. *)
Lemma frac_parts (x : Q) :
  - (2 ^ 24) < x -> x < 2 ^ 31 ->
  let i := (float_to_int x - (if Qlt_bool x 0 then 1 else 0))%Z in
  (- 2 ^ 24 <= i < 2 ^ 31)%Z
  /\ 0 <= x - inject_Z i <= 1
  /\ (x < 0 -> forall n : Z, x == inject_Z n -> i = (n - 1)%Z).
Proof.
  intros Hlo Hhi i.
  change (2 ^ 24) with 16777216 in Hlo.
  change (2 ^ 31) with 2147483648 in Hhi.
  change (2 ^ 24)%Z with 16777216%Z.
  change (2 ^ 31)%Z with 2147483648%Z.
  destruct (Qlt_bool x 0) eqn:E.
  - apply Qlt_bool_iff in E.
    assert (Hi : i = (Qceiling x - 1)%Z).
    { unfold i. rewrite float_to_int_nonpos by lra. reflexivity. }
    pose proof (Qle_ceiling x) as C1.
    pose proof (Qceiling_lt x) as C2.
    unfold Z.sub in C2. rewrite inject_Z_plus, inject_Z_opp in C2.
    change (inject_Z 1) with 1 in C2.
    assert (C3 : (Qceiling x <= 0)%Z).
    { change 0%Z with (Qceiling 0). apply Qceiling_resp_le. lra. }
    assert (C4 : (- 16777216 < Qceiling x)%Z).
    { rewrite Zlt_Qlt. change (inject_Z (-16777216)) with (- (16777216)).
      lra. }
    rewrite Hi. unfold Z.sub. rewrite inject_Z_plus, inject_Z_opp.
    change (inject_Z 1) with 1.
    repeat split; try lia; try lra.
    intros _ n Hn. rewrite (Qceiling_comp _ _ Hn), Qceiling_Z. reflexivity.
  - apply Qlt_bool_false in E.
    assert (Hi : i = Qfloor x).
    { unfold i. rewrite float_to_int_nonneg by lra. lia. }
    pose proof (Qfloor_le x) as F1.
    pose proof (Qlt_floor x) as F2.
    rewrite inject_Z_plus in F2. change (inject_Z 1) with 1 in F2.
    assert (F3 : (0 <= Qfloor x)%Z).
    { change 0%Z with (Qfloor 0). apply Qfloor_resp_le. lra. }
    assert (F4 : (Qfloor x < 2147483648)%Z).
    { rewrite Zlt_Qlt. change (inject_Z 2147483648) with 2147483648. lra. }
    rewrite Hi. repeat split; try lia; try lra.
Qed.


(** The integer stored by [frac] converts to binary32 without rounding. *)
Lemma frac_int_exact (x : Q) :
  round32 x == x -> - (2 ^ 24) < x -> x < 2 ^ 31 ->
  round32 (inject_Z (frac_int x)) == inject_Z (frac_int x).
Proof.
  intros Hr Hlo Hhi.
  destruct (frac_parts x Hlo Hhi) as (Hi & Hd & _). fold (frac_int x) in *.
  change (2 ^ 24)%Z with 16777216%Z in Hi.
  destruct (Z_le_gt_dec (frac_int x) 16777216) as [Hs | Hb].
  - apply round32_int. change (2 ^ 24)%Z with 16777216%Z. lia.
  - assert (Hx : 16777216 <= x).
    { assert (H : inject_Z 16777216 <= inject_Z (frac_int x)).
      { rewrite <- Zle_Qle. lia. }
      change (inject_Z 16777216) with 16777216 in H. lra. }
    destruct (round32_large_is_int x Hr) as [n Hn].
    { rewrite Qabs_pos by lra. exact Hx. }
    assert (E : frac_int x = n).
    { unfold frac_int.
      assert (F : Qlt_bool x 0 = false) by (apply Qlt_bool_false; lra).
      rewrite F, float_to_int_nonneg by lra.
      rewrite (Qfloor_comp _ _ Hn), Qfloor_Z. lia. }
    rewrite E, <- (round32_eq _ _ Hn), Hr. exact Hn.
Qed.

(** C10, as amended: for every binary32 number [x] with
    [-2^24 < x < 2^31], frac stores the integer
    [i = trunc(x) - (1 if x < 0 else 0)] and returns the binary32 rounding
    of [x - i].  The return value lies in the closed interval [0, 1], and
    return value plus stored integer give [x] back up to that one rounding,
    which is at most 2^-25.  When [x] is a negative whole number the return
    value is exactly 1 and the stored integer is [x - 1]. *)
Theorem frac_binary32 (x : Q) :
  round32 x == x -> - (2 ^ 24) < x -> x < 2 ^ 31 ->
  let r := fst (@frac binary32 x) in
  let i := snd (@frac binary32 x) in
  i = (float_to_int x - (if Qlt_bool x 0 then 1 else 0))%Z
  /\ r = round32 (x - inject_Z i)
  /\ 0 <= r <= 1
  /\ Qabs (r + inject_Z i - x) <= 2 ^ (-25)
  /\ (x < 0 -> forall n : Z, x == inject_Z n ->
      r == 1 /\ inject_Z i == x - 1).
Proof.
  intros Hr Hlo Hhi r i.
  destruct (frac_parts x Hlo Hhi) as (Hi & Hd & Hw).
  pose proof (frac_int_exact x Hr Hlo Hhi) as Hc.
  fold (frac_int x) in Hi, Hd, Hw.
  assert (Ei : i = frac_int x).
  { unfold i, frac. cbn [snd]. apply wrap_int_small.
    fold (frac_int x). change (2 ^ 24)%Z with 16777216%Z in Hi.
    change (2 ^ 31)%Z with 2147483648%Z in *. lia. }
  assert (Er : r = round32 (x - inject_Z i)).
  { unfold r, frac, fsub, int_to_float. cbn [fst rnd binary32].
    fold (frac_int x).
    rewrite Ei, wrap_int_small.
    - apply round32_eq. rewrite Hc. reflexivity.
    - change (2 ^ 24)%Z with 16777216%Z in Hi.
      change (2 ^ 31)%Z with 2147483648%Z in *. lia. }
  split; [exact Ei |]. split; [exact Er |].
  rewrite Er, Ei.
  destruct (round32_unit_interval _ (proj1 Hd) (proj2 Hd)) as [U0 U1].
  pose proof (round32_unit_error _ (proj1 Hd) (proj2 Hd)) as Ue.
  split; [split; assumption |]. split.
  - assert (Eq : round32 (x - inject_Z (frac_int x)) + inject_Z (frac_int x) - x
                 == round32 (x - inject_Z (frac_int x)) - (x - inject_Z (frac_int x)))
      by ring.
    rewrite Eq. exact Ue.
  - intros Hneg n Hn. specialize (Hw Hneg n Hn). rewrite Hw.
    unfold Z.sub. rewrite inject_Z_plus, inject_Z_opp.
    change (inject_Z 1) with 1. split.
    + rewrite (round32_eq _ 1); [reflexivity | rewrite Hn; ring].
    + rewrite Hn. ring.
Qed.

(** In exact arithmetic the reconstruction is exact and the bounds hold for
    every [x] whose integer part fits an [int]. *)
Lemma frac_exact (x : Q) :
  (- 2 ^ 31 < float_to_int x < 2 ^ 31)%Z ->
  let r := fst (@frac exact x) in
  let i := snd (@frac exact x) in
  i = (float_to_int x - (if Qlt_bool x 0 then 1 else 0))%Z
  /\ r == x - inject_Z i
  /\ r + inject_Z i == x
  /\ 0 <= r <= 1
  /\ (x < 0 -> forall n : Z, x == inject_Z n ->
      r == 1 /\ inject_Z i == x - 1).
Proof.
  intros Hrange r i. subst r i.
  change (2 ^ 31)%Z with 2147483648%Z in Hrange.
  assert (Ei : snd (@frac exact x) = frac_int x).
  { unfold frac. cbn [snd]. apply wrap_int_small.
    change (2 ^ 31)%Z with 2147483648%Z. unfold frac_int.
    destruct (Qlt_bool x 0); lia. }
  assert (Er : fst (@frac exact x) == x - inject_Z (frac_int x)).
  { rewrite <- Ei. unfold frac, fsub, int_to_float, exact, rnd.
    cbn [fst snd]. reflexivity. }
  split; [exact Ei |]. rewrite Ei.
  split; [exact Er |]. split; [rewrite Er; ring |].
  assert (Hd : 0 <= x - inject_Z (frac_int x) <= 1
               /\ (x < 0 -> forall n : Z, x == inject_Z n ->
                   frac_int x = (n - 1)%Z)).
  { unfold frac_int. destruct (Qlt_bool x 0) eqn:E.
    - apply Qlt_bool_iff in E.
      rewrite float_to_int_nonpos by lra.
      pose proof (Qle_ceiling x) as C1.
      pose proof (Qceiling_lt x) as C2.
      unfold Z.sub in *. rewrite inject_Z_plus, inject_Z_opp in *.
      change (inject_Z 1) with 1 in *.
      split; [split; lra |].
      intros _ n Hn. rewrite (Qceiling_comp _ _ Hn), Qceiling_Z.
      reflexivity.
    - apply Qlt_bool_false in E.
      rewrite float_to_int_nonneg by lra.
      pose proof (Qfloor_le x) as F1.
      pose proof (Qlt_floor x) as F2.
      rewrite inject_Z_plus in F2. change (inject_Z 1) with 1 in F2.
      rewrite Z.sub_0_r.
      split; [split; lra |]. intros Hneg. lra. }
  destruct Hd as [Hd Hw]. split; [rewrite Er; exact Hd |].
  intros Hneg n Hn. rewrite Er, (Hw Hneg n Hn).
  unfold Z.sub. rewrite inject_Z_plus, inject_Z_opp, Hn.
  change (inject_Z 1) with 1. split; ring.
Qed.

(** At the binary32 number -16777218, which is well within the range of
    [int], frac returns 2: the stored integer -16777219 is not a binary32
    number and converts to -16777220.  The return value is neither within
    [0, 1] nor the 1.0 expected at a negative whole number. *)
Lemma frac_large_negative :
  let x := - (16777218) in
  round32 x = x
  /\ float_to_int x = (-16777218)%Z
  /\ @frac binary32 x = (2, (-16777219)%Z)
  /\ ~ (fst (@frac binary32 x) <= 1)
  /\ ~ (fst (@frac binary32 x) == 1).
Proof.
  vm_compute. repeat split; try discriminate.
  intros H. now apply H.
Qed.

(** At -2^-30 the subtraction rounds to 1, so return value plus stored
    integer is 0 and not [x]. *)
Lemma frac_small_negative :
  let x := - (1 # 1073741824) in
  round32 x = x
  /\ @frac binary32 x = (1, (-1)%Z)
  /\ ~ (fst (@frac binary32 x) + inject_Z (snd (@frac binary32 x)) == x).
Proof.
  vm_compute. repeat split; discriminate.
Qed.

(** ** Bicubic reconstruction at a pixel centre *)

Lemma Qfloor_unique (x : Q) (n : Z) :
  inject_Z n <= x -> x < inject_Z n + 1 -> Qfloor x = n.
Proof.
  intros Hlo Hhi.
  pose proof (Qfloor_le x) as F1.
  pose proof (Qlt_floor x) as F2.
  rewrite inject_Z_plus in F2. change (inject_Z 1) with 1 in F2.
  assert (A : inject_Z (Qfloor x) < inject_Z (n + 1)).
  { rewrite inject_Z_plus. change (inject_Z 1) with 1. lra. }
  assert (B : inject_Z n < inject_Z (Qfloor x + 1)).
  { rewrite inject_Z_plus. change (inject_Z 1) with 1. lra. }
  rewrite <- Zlt_Qlt in A, B. lia.
Qed.

(** The bilinear fetch between four texels. *)
Lemma bilerp_at (texel : Z -> Z -> Q) (xb yb a b : Q) (i j : Z) :
  xb == inject_Z i + a -> 0 <= a -> a < 1 ->
  yb == inject_Z j + b -> 0 <= b -> b < 1 ->
  bilerp texel xb yb
  == (1 - a) * (1 - b) * texel i j + a * (1 - b) * texel (i + 1)%Z j
     + (1 - a) * b * texel i (j + 1)%Z
     + a * b * texel (i + 1)%Z (j + 1)%Z.
Proof.
  intros Hx Ha0 Ha1 Hy Hb0 Hb1. unfold bilerp.
  rewrite (Qfloor_unique xb i) by lra.
  rewrite (Qfloor_unique yb j) by lra.
  rewrite Hx, Hy. ring.
Qed.

Lemma fadd_exact (a b : Q) : @fadd exact a b = a + b.
Proof. reflexivity. Qed.
Lemma fsub_exact (a b : Q) : @fsub exact a b = a - b.
Proof. reflexivity. Qed.
Lemma fmul_exact (a b : Q) : @fmul exact a b = a * b.
Proof. reflexivity. Qed.
Lemma fdiv_exact (a b : Q) : @fdiv exact a b = a / b.
Proof. reflexivity. Qed.
Lemma int_to_float_exact (i : Z) : @int_to_float exact i = inject_Z i.
Proof. reflexivity. Qed.

Ltac exact_arith :=
  cbv zeta; unfold fadd, fsub, fmul, fdiv, int_to_float; cbn [rnd exact].

(** In exact arithmetic the helpers respect equality of rationals. *)
Lemma cubic_exact_at_0 (a : Q) :
  a == 0 ->
  @cubic_g0 exact a == 5 # 6 /\ @cubic_g1 exact a == 1 # 6
  /\ @cubic_h0 exact a == - (1 # 5) /\ @cubic_h1 exact a == 1.
Proof.
  intros Ha.
  unfold cubic_h0, cubic_h1, cubic_g0, cubic_g1, cubic_w0, cubic_w1,
    cubic_w2, cubic_w3, fneg.
  exact_arith. rewrite Ha. repeat split; reflexivity.
Qed.

Section Centre.
Variables (W px : Z) (u : Q).
Hypothesis HW : (0 < W)%Z.
Hypothesis Hu : @pixel_coord exact u W == inject_Z px.

Lemma W_pos : 0 < inject_Z W.
Proof. change 0 with (inject_Z 0). rewrite <- Zlt_Qlt. exact HW. Qed.

Lemma centre_frac : @pixel_frac exact (@pixel_coord exact u W) == 0.
Proof.
  unfold pixel_frac, pixel_int, floorf. exact_arith.
  rewrite (Qfloor_comp _ _ Hu), Qfloor_Z, Hu. ring.
Qed.

Lemma centre_int : pixel_int (@pixel_coord exact u W) == inject_Z px.
Proof.
  unfold pixel_int, floorf. rewrite (Qfloor_comp _ _ Hu), Qfloor_Z.
  reflexivity.
Qed.

Lemma centre_tap0 :
  @tap0 exact u W * inject_Z W - (1 # 2) == inject_Z (px - 1) + (4 # 5).
Proof.
  pose proof W_pos as P.
  destruct (cubic_exact_at_0 _ centre_frac) as (_ & _ & H0 & _).
  unfold tap0. exact_arith.
  rewrite H0, centre_int. unfold Z.sub.
  rewrite inject_Z_plus, inject_Z_opp. change (inject_Z 1) with 1.
  field. lra.
Qed.

Lemma centre_tap1 :
  @tap1 exact u W * inject_Z W - (1 # 2) == inject_Z (px + 1) + 0.
Proof.
  pose proof W_pos as P.
  destruct (cubic_exact_at_0 _ centre_frac) as (_ & _ & _ & H1).
  unfold tap1. exact_arith.
  rewrite H1, centre_int.
  rewrite inject_Z_plus. change (inject_Z 1) with 1.
  field. lra.
Qed.

Lemma centre_point : u * inject_Z W - (1 # 2) == inject_Z px + 0.
Proof.
  rewrite <- Hu. unfold pixel_coord. exact_arith. ring.
Qed.
End Centre.

(** C7, as amended: let the fractional offsets be zero, that is, let the
    sample point be the centre of pixel [(px, py)], and let the read
    primitive be the exact bilinear fetch from a single-channel image.
    Then the direct read at the sample point is texel [(px, py)], while the
    4-tap combination of kernel_image_interp_bicubic, in exact arithmetic,
    is the B-spline average of the 3 by 3 texels around [(px, py)] with
    weights 1/6, 4/6, 1/6 on each axis.  The two are equal exactly when
    the weighted sum of the eight neighbours is 20 times the centre texel
    (as it is for an image that is constant or affine there). *)
Theorem bicubic_at_pixel_centre (info : KernelImageInfo)
        (texel : Z -> Z -> Q) (uv : float2) (px py : Z) :
  (0 < info_width info)%Z -> (0 < info_height info)%Z ->
  @pixel_coord exact (f2x uv) (info_width info) == inject_Z px ->
  @pixel_coord exact (f2y uv) (info_height info) == inject_Z py ->
  let env := image_env info texel in
  let bicubic :=
    eval env (@kernel_image_interp_bicubic exact float (@float_value exact) info uv) in
  let direct :=
    env _ (image_object_read_2D_float (info_data info) (f2x uv) (f2y uv)) in
  let ring8 :=
    texel (px - 1)%Z (py - 1)%Z + 4 * texel px (py - 1)%Z
    + texel (px + 1)%Z (py - 1)%Z
    + 4 * texel (px - 1)%Z py + 4 * texel (px + 1)%Z py
    + texel (px - 1)%Z (py + 1)%Z + 4 * texel px (py + 1)%Z
    + texel (px + 1)%Z (py + 1)%Z in
  @pixel_frac exact (@pixel_coord exact (f2x uv) (info_width info)) == 0
  /\ @pixel_frac exact (@pixel_coord exact (f2y uv) (info_height info)) == 0
  /\ direct == texel px py
  /\ bicubic == (1 # 36) * (ring8 + 16 * texel px py)
  /\ (bicubic == direct <-> ring8 == 20 * texel px py).
Proof.
  intros HW HH Hu Hv env bicubic direct ring8.
  pose proof (centre_frac _ _ _ Hu) as Hfx.
  pose proof (centre_frac _ _ _ Hv) as Hfy.
  assert (Hd : direct == texel px py).
  { unfold direct, env, image_env, bilinear_read.
    rewrite (bilerp_at texel _ _ 0 0 px py
               (centre_point _ _ _ Hu) ltac:(lra) ltac:(lra)
               (centre_point _ _ _ Hv) ltac:(lra) ltac:(lra)).
    ring. }
  assert (Hb : bicubic == (1 # 36) * (ring8 + 16 * texel px py)).
  { unfold bicubic.
    destruct (bicubic_generic (R := exact) (V := @float_value exact) env info uv)
      as [Hev _].
    rewrite Hev. unfold bicubic_formula.
    cbn [vadd vscale float_value ccl_gpu_image_object_read_2D].
    unfold env, image_env, bilinear_read. exact_arith.
    destruct (cubic_exact_at_0 _ Hfx) as (G0x & G1x & _ & _).
    destruct (cubic_exact_at_0 _ Hfy) as (G0y & G1y & _ & _).
    rewrite G0x, G1x, G0y, G1y.
    rewrite (bilerp_at texel _ _ (4 # 5) (4 # 5) (px - 1) (py - 1)
               (centre_tap0 _ _ _ HW Hu) ltac:(lra) ltac:(lra)
               (centre_tap0 _ _ _ HH Hv) ltac:(lra) ltac:(lra)).
    rewrite (bilerp_at texel _ _ 0 (4 # 5) (px + 1) (py - 1)
               (centre_tap1 _ _ _ HW Hu) ltac:(lra) ltac:(lra)
               (centre_tap0 _ _ _ HH Hv) ltac:(lra) ltac:(lra)).
    rewrite (bilerp_at texel _ _ (4 # 5) 0 (px - 1) (py + 1)
               (centre_tap0 _ _ _ HW Hu) ltac:(lra) ltac:(lra)
               (centre_tap1 _ _ _ HH Hv) ltac:(lra) ltac:(lra)).
    rewrite (bilerp_at texel _ _ 0 0 (px + 1) (py + 1)
               (centre_tap1 _ _ _ HW Hu) ltac:(lra) ltac:(lra)
               (centre_tap1 _ _ _ HH Hv) ltac:(lra) ltac:(lra)).
    replace (px - 1 + 1)%Z with px by lia.
    replace (py - 1 + 1)%Z with py by lia.
    unfold ring8. ring. }
  repeat split; try assumption.
  - intros E. rewrite Hb, Hd in E. lra.
  - intros E. rewrite Hb, Hd. lra.
Qed.

(** On the 4 by 4 image that is 1 at texel (1, 1) and 0 elsewhere, at the
    centre (3/8, 3/8) of pixel (1, 1), the fractional offsets are zero, the
    direct read returns 1 and the bicubic reconstruction returns 4/9 in
    exact arithmetic and 14913081 / 2^25 in binary32. *)
Lemma bicubic_at_pixel_centre_differs :
  let info := Scene.info_of 1 in
  let uv := make_float2 (3 # 8) (3 # 8) in
  let direct := image_object_read_2D_float (info_data info) (3 # 8) (3 # 8) in
  @pixel_frac exact (@pixel_coord exact (3 # 8) 4) == 0
  /\ pixel_int (@pixel_coord exact (3 # 8) 4) == 1
  /\ Scene.env _ direct == 1
  /\ eval Scene.env
          (@kernel_image_interp_bicubic exact float (@float_value exact) info uv)
     == 4 # 9
  /\ @pixel_frac binary32 (@pixel_coord binary32 (3 # 8) 4) == 0
  /\ eval Scene.env
          (@kernel_image_interp_bicubic binary32 float (@float_value binary32) info uv)
     == 14913081 # 33554432.
Proof. vm_compute. repeat split. Qed.

(* ================================================================== *)
(** ** Worked instances on the concrete scene *)

(** The tiled texture 1 of the scene in its three tile states: resident
    (left half), failed (lower right quarter), not resident (upper right
    quarter). *)
Lemma interp_tile_states_witness :
  let K := @kernel_image_interp binary32 Scene.NONE in
  let info := Scene.info_of 0 in
  (eval Scene.env (K 1%Z (make_float2 (1 # 8) (5 # 8)) Scene.duv)
   = eval Scene.env
       (@kernel_image_interp_sample binary32 info
          (make_float2 (@fdiv binary32 (1 # 2) (@int_to_float binary32 4))
                       (@fdiv binary32 (5 # 2) (@int_to_float binary32 4)))))
  /\ (let p := K 1%Z (make_float2 (5 # 8) (3 # 8)) Scene.duv in
      eval Scene.env p = IMAGE_TEXTURE_MISSING_RGBA
      /\ calls_to ImageInfoTable Scene.env p = false
      /\ calls_to HardwareRead Scene.env p = false)
  /\ (let p := K 1%Z (make_float2 (5 # 8) (5 # 8)) Scene.duv in
      eval Scene.env p = Scene.average
      /\ calls_to ImageInfoTable Scene.env p = false
      /\ calls_to HardwareRead Scene.env p = false).
Proof.
  assert (Hne : 1%Z <> Scene.NONE) by discriminate.
  assert (Htiled : tex_tile_descriptor_offset
                     (Scene.env _ (image_textures_fetch 1)) <> UINT_MAX)
    by discriminate.
  split; [ | split].
  - exact (@interp_tile_states binary32 Scene.NONE Scene.env 1
             (make_float2 (1 # 8) (5 # 8)) (make_float2 (1 # 8) (5 # 8))
             (make_float2 (1 # 2) (5 # 2)) Scene.duv (KERNEL_TILE_LOADED 0)
             Hne Htiled eq_refl eq_refl).
  - exact (@interp_tile_states binary32 Scene.NONE Scene.env 1
             (make_float2 (5 # 8) (3 # 8)) (make_float2 (5 # 8) (3 # 8))
             (make_float2 (5 # 2) (3 # 2)) Scene.duv KERNEL_TILE_LOAD_FAILED
             Hne Htiled eq_refl eq_refl).
  - exact (@interp_tile_states binary32 Scene.NONE Scene.env 1
             (make_float2 (5 # 8) (5 # 8)) (make_float2 (5 # 8) (5 # 8))
             (make_float2 (5 # 2) (5 # 2)) Scene.duv KERNEL_TILE_NOT_LOADED
             Hne Htiled eq_refl eq_refl).
Defined.

(** The tiled texture 1 sampled outside the unit square. *)
Lemma interp_wrap_rejected_witness :
  let uv := make_float2 (13 # 8) (5 # 8) in
  let p := @kernel_image_interp binary32 Scene.NONE 1 uv Scene.duv in
  eval Scene.env p = zero_float4
  /\ zero_float4 <> IMAGE_TEXTURE_MISSING_RGBA
  /\ trace Scene.env p
     = [call (image_textures_fetch 1); call (image_tile_wrap 2 uv)]
  /\ calls_to TileMap Scene.env p = false
  /\ calls_to ImageInfoTable Scene.env p = false
  /\ calls_to HardwareRead Scene.env p = false.
Proof.
  assert (Hne : 1%Z <> Scene.NONE) by discriminate.
  assert (Htiled : tex_tile_descriptor_offset
                     (Scene.env _ (image_textures_fetch 1)) <> UINT_MAX)
    by discriminate.
  exact (@interp_wrap_rejected binary32 Scene.NONE Scene.env 1
           (make_float2 (13 # 8) (5 # 8)) (make_float2 (13 # 8) (5 # 8))
           Scene.duv Hne Htiled eq_refl).
Defined.

(** Texture 0 of the scene is a single-channel image with linear
    interpolation: one read, broadcast. *)
Lemma interp_one_channel_broadcast_witness :
  let uv := make_float2 (3 # 8) (3 # 8) in
  let info := Scene.info_of 0 in
  let read := image_object_read_2D_float 100 (3 # 8) (3 # 8) in
  let f := Scene.env _ read in
  eval Scene.env (@kernel_image_interp binary32 Scene.NONE 0 uv Scene.duv)
  = make_float4 f f f 1
  /\ eval Scene.env (@kernel_image_interp_sample binary32 info uv)
     = make_float4 f f f 1
  /\ trace Scene.env (@kernel_image_interp_sample binary32 info uv)
     = [call read].
Proof.
  assert (Hne : 0%Z <> Scene.NONE) by discriminate.
  exact (@interp_one_channel_broadcast binary32 Scene.NONE Scene.env 0
           (make_float2 (3 # 8) (3 # 8)) (make_float2 (3 # 8) (3 # 8))
           Scene.duv (Scene.info_of 0) Hne eq_refl eq_refl).
Defined.

(** The weights at [a = 1/2]. *)
Lemma cubic_partition_of_unity_witness :
  @weight_sum exact (1 # 2) == 1
  /\ @amplitude_sum exact (1 # 2) == 1
  /\ Qabs (@weight_sum binary32 (1 # 2) - 1) <= 1 # 100000
  /\ Qabs (@amplitude_sum binary32 (1 # 2) - 1) <= 1 # 100000.
Proof.
  apply (cubic_partition_of_unity (1 # 2)).
  - vm_compute. discriminate.
  - vm_compute. reflexivity.
Defined.

(** frac at -3. *)
Lemma frac_binary32_witness :
  let x : Q := - (3) in
  let r := fst (@frac binary32 x) in
  let i := snd (@frac binary32 x) in
  i = (float_to_int x - (if Qlt_bool x 0 then 1 else 0))%Z
  /\ r = round32 (x - inject_Z i)
  /\ 0 <= r <= 1
  /\ Qabs (r + inject_Z i - x) <= 2 ^ (-25)
  /\ (x < 0 -> forall n : Z, x == inject_Z n ->
      r == 1 /\ inject_Z i == x - 1).
Proof.
  apply (frac_binary32 (- (3))).
  - vm_compute. reflexivity.
  - vm_compute. reflexivity.
  - vm_compute. reflexivity.
Defined.

(** The pixel centre (3/8, 3/8) of the 4 by 4 image with a single dot. *)
Lemma bicubic_at_pixel_centre_witness :
  let info := Scene.info_of 1 in
  let uv := make_float2 (3 # 8) (3 # 8) in
  let env := image_env info Scene.dot in
  let bicubic :=
    eval env
         (@kernel_image_interp_bicubic exact float (@float_value exact)
                                       info uv) in
  let direct := env _ (image_object_read_2D_float 101 (3 # 8) (3 # 8)) in
  @pixel_frac exact (@pixel_coord exact (3 # 8) 4) == 0
  /\ @pixel_frac exact (@pixel_coord exact (3 # 8) 4) == 0
  /\ direct == 1
  /\ bicubic == (1 # 36) * (0 + 16 * 1)
  /\ (bicubic == direct <-> 0 == 20 * 1).
Proof.
  assert (HW : (0 < info_width (Scene.info_of 1))%Z) by reflexivity.
  assert (HH : (0 < info_height (Scene.info_of 1))%Z) by reflexivity.
  assert (Hc : @pixel_coord exact (3 # 8) 4 == inject_Z 1) by reflexivity.
  exact (bicubic_at_pixel_centre (Scene.info_of 1) Scene.dot
           (make_float2 (3 # 8) (3 # 8)) 1 1 HW HH Hc Hc).
Defined.

(* ================================================================== *)
(** * Further properties *)

(** ** The dispatcher *)

Lemma count_calls_cons (k : Collaborator) (c : Call) (t : list Call) :
  count_calls k (c :: t)
  = ((if Collaborator_eqb (collaborator c) k then 1 else 0)
     + count_calls k t)%nat.
Proof.
  unfold count_calls. simpl.
  destruct (Collaborator_eqb (collaborator c) k); reflexivity.
Qed.

(** What [reads_follow_fetch] decides. *)
Lemma reads_follow_fetch_sound (t : list Call) :
  forall (fetched : bool) (t1 t2 : list Call) (c : Call),
    reads_follow_fetch fetched t = true ->
    t = t1 ++ c :: t2 -> collaborator c = HardwareRead ->
    fetched = true \/ (1 <= count_calls ImageInfoTable t1)%nat.
Proof.
  induction t as [| d t IH]; intros fetched t1 t2 c Hok Ht Hc.
  - destruct t1; discriminate.
  - destruct t1 as [| d1 t1]; simpl in Ht; injection Ht as Hd Ht.
    + subst d. simpl in Hok. rewrite Hc in Hok.
      apply andb_true_iff in Hok. left. apply Hok.
    + subst d1. simpl in Hok. rewrite count_calls_cons.
      destruct (collaborator d) eqn:K; simpl;
        try (destruct (IH fetched t1 t2 c Hok Ht Hc) as [F | F];
             [left; exact F | right; exact F]).
      * right. lia.
      * apply andb_true_iff in Hok. left. apply Hok.
Qed.

Section DispatcherMore.
Context {R : Rounding}.
Variable NONE : Z.

(** X1: for a texture entry without tiling (tile_descriptor_offset is
    UINT_MAX) the dispatcher never calls the wrap or the tile map.  If the
    entry's slot is KERNEL_IMAGE_NONE the result is the missing-texture
    colour and the texture fetch is the only call; otherwise the image info
    at that slot is sampled at the coordinate [uv] as it was passed in. *)
Theorem interp_full_image (env : Env) (tex_id : Z) (uv : float2)
        (duv : differential2) :
  tex_id <> NONE ->
  let tex := env _ (image_textures_fetch tex_id) in
  tex_tile_descriptor_offset tex = UINT_MAX ->
  let p := kernel_image_interp NONE tex_id uv duv in
  let info := env _ (image_info_fetch (tex_slot tex)) in
  (if (tex_slot tex =? NONE)%Z then
     eval env p = IMAGE_TEXTURE_MISSING_RGBA
     /\ trace env p = [call (image_textures_fetch tex_id)]
   else
     eval env p = eval env (kernel_image_interp_sample info uv)
     /\ trace env p
        = call (image_textures_fetch tex_id)
          :: call (image_info_fetch (tex_slot tex))
          :: trace env (kernel_image_interp_sample info uv))
  /\ calls_to TileWrap env p = false
  /\ calls_to TileMap env p = false.
Proof.
  intros Hne tex Hfull p info. subst p.
  rewrite interp_not_none by assumption.
  unfold calls_to. rewrite eval_bind, trace_bind.
  unfold kernel_image_interp_resolve. simpl. fold tex.
  rewrite Hfull. simpl.
  destruct (tex_slot tex =? NONE)%Z eqn:E; simpl.
  - repeat split.
  - fold info. repeat split.
    + unfold kernel_image_interp_sample.
      destruct (is_four_channel (info_data_type info)),
        (is_cubic_or_smart (info_interpolation info)); reflexivity.
    + unfold kernel_image_interp_sample.
      destruct (is_four_channel (info_data_type info)),
        (is_cubic_or_smart (info_interpolation info)); reflexivity.
Qed.

(** X2: for an image info of a 4-channel kind the sampling returns what
    the read primitive gives, unchanged in all four channels: the 4-channel
    bicubic reconstruction, with its four reads, when the interpolation is
    cubic or smart, and the answer of one single read at [uv] otherwise. *)
Theorem sample_four_channel (env : Env) (info : KernelImageInfo)
        (uv : float2) :
  is_four_channel (info_data_type info) = true ->
  let read :=
    image_object_read_2D_float4 (info_data info) (f2x uv) (f2y uv) in
  let p := kernel_image_interp_sample info uv in
  if is_cubic_or_smart (info_interpolation info) then
    eval env p = eval env (kernel_image_interp_bicubic (T := float4) info uv)
    /\ count_calls HardwareRead (trace env p) = 4%nat
  else
    eval env p = env _ read /\ trace env p = [call read].
Proof.
  intros H4 read p. subst p read. unfold kernel_image_interp_sample.
  rewrite H4.
  destruct (is_cubic_or_smart (info_interpolation info)); split; reflexivity.
Qed.

Lemma interp_trace_budget (env : Env) (tex_id : Z) (uv : float2)
        (duv : differential2) :
  let t := trace env (kernel_image_interp NONE tex_id uv duv) in
  (length t <= 8)%nat
  /\ (count_calls TextureTable t <= 1)%nat
  /\ (count_calls TileWrap t <= 1)%nat
  /\ (count_calls TileMap t <= 1)%nat
  /\ (count_calls ImageInfoTable t <= 1)%nat
  /\ count_calls UdimIndex t = 0%nat
  /\ (count_calls HardwareRead t = 0%nat
      \/ count_calls HardwareRead t = 1%nat
      \/ count_calls HardwareRead t = 4%nat)
  /\ (count_calls HardwareRead t = 0%nat
      \/ count_calls ImageInfoTable t = 1%nat).
Proof.
  intros t. subst t. unfold kernel_image_interp.
  destruct (tex_id =? NONE)%Z; [simpl; repeat split; auto; lia |].
  rewrite trace_bind.
  unfold kernel_image_interp_resolve. simpl.
  destruct (negb _).
  - simpl. destruct (env _ (image_tile_wrap _ uv)) as [inside uv']. simpl.
    destruct inside; simpl;
      [ | unfold count_calls; simpl; repeat split; auto; lia].
    destruct (env _ (image_tile_map _ uv' duv zero_float2)) as [td xy].
    simpl.
    destruct td as [slot | |]; simpl;
      try (unfold count_calls; simpl; repeat split; auto; lia).
    unfold kernel_image_interp_sample.
    destruct (is_four_channel _), (is_cubic_or_smart _); simpl;
      unfold count_calls; simpl; repeat split; auto; lia.
  - destruct (tex_slot _ =? NONE)%Z; simpl;
      [unfold count_calls; simpl; repeat split; auto; lia |].
    unfold kernel_image_interp_sample.
    destruct (is_four_channel _), (is_cubic_or_smart _); simpl;
      unfold count_calls; simpl; repeat split; auto; lia.
Qed.

Lemma interp_reads_follow_fetch (env : Env) (tex_id : Z) (uv : float2)
      (duv : differential2) :
  reads_follow_fetch false
    (trace env (kernel_image_interp NONE tex_id uv duv)) = true.
Proof.
  unfold kernel_image_interp.
  destruct (tex_id =? NONE)%Z; [reflexivity |].
  rewrite trace_bind.
  unfold kernel_image_interp_resolve. simpl.
  destruct (negb _).
  - simpl. destruct (env _ (image_tile_wrap _ uv)) as [inside uv']. simpl.
    destruct inside; simpl; [ | reflexivity].
    destruct (env _ (image_tile_map _ uv' duv zero_float2)) as [td xy].
    simpl.
    destruct td as [slot | |]; simpl; try reflexivity.
    unfold kernel_image_interp_sample.
    destruct (is_four_channel _), (is_cubic_or_smart _); reflexivity.
  - destruct (tex_slot _ =? NONE)%Z; simpl; [reflexivity |].
    unfold kernel_image_interp_sample.
    destruct (is_four_channel _), (is_cubic_or_smart _); reflexivity.
Qed.

(** X3: whatever the tables answer, one call of kernel_image_interp makes at
    most 8 calls to its collaborators: at most one each to the texture
    table, the wrap, the tile map and the image-info table, none to the
    UDIM index, and 0, 1 or 4 hardware reads.  Every hardware read comes
    after the image-info fetch: wherever the trace is split at a hardware
    read, the part before the read contains the one image-info fetch. *)
Theorem interp_call_budget (env : Env) (tex_id : Z) (uv : float2)
        (duv : differential2) :
  let t := trace env (kernel_image_interp NONE tex_id uv duv) in
  (length t <= 8)%nat
  /\ (count_calls TextureTable t <= 1)%nat
  /\ (count_calls TileWrap t <= 1)%nat
  /\ (count_calls TileMap t <= 1)%nat
  /\ (count_calls ImageInfoTable t <= 1)%nat
  /\ count_calls UdimIndex t = 0%nat
  /\ (count_calls HardwareRead t = 0%nat
      \/ count_calls HardwareRead t = 1%nat
      \/ count_calls HardwareRead t = 4%nat)
  /\ (count_calls HardwareRead t = 0%nat
      \/ count_calls ImageInfoTable t = 1%nat)
  /\ reads_follow_fetch false t = true
  /\ (forall (t1 t2 : list Call) (c : Call),
         t = t1 ++ c :: t2 -> collaborator c = HardwareRead ->
         count_calls ImageInfoTable t1 = 1%nat).
Proof.
  intros t.
  destruct (interp_trace_budget env tex_id uv duv)
    as (B1 & B2 & B3 & B4 & B5 & B6 & B7 & B8).
  fold t in B1, B2, B3, B4, B5, B6, B7, B8.
  pose proof (interp_reads_follow_fetch env tex_id uv duv) as Hok.
  fold t in Hok.
  repeat (split; [assumption |]).
  intros t1 t2 c Ht Hc.
  destruct (reads_follow_fetch_sound t false t1 t2 c Hok Ht Hc)
    as [F | F]; [discriminate |].
  assert (L : (count_calls ImageInfoTable t1
               <= count_calls ImageInfoTable t)%nat).
  { rewrite Ht. unfold count_calls. rewrite filter_app, length_app. lia. }
  lia.
Qed.
End DispatcherMore.

Section DispatcherMore2.
Context {R : Rounding}.
Variable NONE : Z.

(** X4: kernel_image_interp_with_udim asks the UDIM index first, asks it
    exactly once, and makes at most 9 calls in all. *)
Theorem interp_with_udim_call_budget (env : Env) (image_id : Z)
        (uv : float2) (duv : differential2) :
  let t := trace env (kernel_image_interp_with_udim NONE image_id uv duv) in
  hd_error t = Some (call (image_udim_map image_id uv))
  /\ count_calls UdimIndex t = 1%nat
  /\ (length t <= 9)%nat.
Proof.
  intros t. subst t. unfold kernel_image_interp_with_udim. simpl.
  destruct (env _ (image_udim_map image_id uv)) as [tex_id uv']. simpl.
  destruct (tex_id =? NONE)%Z eqn:E.
  - simpl. unfold count_calls. simpl. repeat split; lia.
  - destruct (interp_trace_budget NONE env tex_id uv' duv)
      as (L & _ & _ & _ & _ & U & _).
    split; [reflexivity |]. split.
    + unfold count_calls in *. simpl. rewrite U. reflexivity.
    + simpl. lia.
Qed.

(** X5: the sampling looks at an image info only through its handle, its
    width and height, whether its data type is one of the four 4-channel
    kinds, and whether its interpolation is cubic or smart.  Two image
    infos that agree on these give the same program: smart is treated as
    cubic, and no data type gets a treatment of its own. *)
Theorem sample_depends_on_classes (info info' : KernelImageInfo)
        (uv : float2) :
  info_data info = info_data info' ->
  info_width info = info_width info' ->
  info_height info = info_height info' ->
  is_four_channel (info_data_type info)
  = is_four_channel (info_data_type info') ->
  is_cubic_or_smart (info_interpolation info)
  = is_cubic_or_smart (info_interpolation info') ->
  kernel_image_interp_sample info uv = kernel_image_interp_sample info' uv.
Proof.
  intros Hd Hw Hh H4 Hc.
  unfold kernel_image_interp_sample, kernel_image_interp_bicubic.
  rewrite Hd, Hw, Hh, H4, Hc. reflexivity.
Qed.
End DispatcherMore2.


(** ** The fractional part *)

Lemma Qceiling_floor_whole (x : Q) :
  x == inject_Z (Qfloor x) -> Qceiling x = Qfloor x.
Proof. intros H. rewrite (Qceiling_comp _ _ H), Qceiling_Z. reflexivity. Qed.

Lemma Qceiling_floor_frac (x : Q) :
  ~ x == inject_Z (Qfloor x) -> Qceiling x = (Qfloor x + 1)%Z.
Proof.
  intros H.
  pose proof (Qfloor_le x) as F1.
  pose proof (Qlt_floor x) as F2.
  pose proof (Qle_ceiling x) as C1.
  pose proof (Qceiling_lt x) as C2.
  assert (F3 : inject_Z (Qfloor x) < x).
  { apply Qle_lteq in F1. destruct F1 as [F1 | F1]; [exact F1 |].
    exfalso. apply H. symmetry. exact F1. }
  assert (A : inject_Z (Qfloor x) < inject_Z (Qceiling x)) by lra.
  assert (B : inject_Z (Qceiling x - 1) < inject_Z (Qfloor x + 1)) by lra.
  rewrite <- Zlt_Qlt in A, B. lia.
Qed.

(** X6: whenever the truncation of [x] fits an [int] (strictly inside its
    range), the integer frac stores is the floor of [x], except when [x] is
    a negative whole number, where it is one less.  This does not depend on
    the rounding of the float operations. *)
Theorem frac_integer_floor {R : Rounding} (x : Q) :
  (- 2 ^ 31 < float_to_int x < 2 ^ 31)%Z ->
  snd (frac x)
  = (Qfloor x - (if Qlt_bool x 0 && is_whole x then 1 else 0))%Z.
Proof.
  intros Hrange. change (2 ^ 31)%Z with 2147483648%Z in Hrange.
  unfold frac. cbn [snd]. rewrite wrap_int_small.
  2:{ change (2 ^ 31)%Z with 2147483648%Z. destruct (Qlt_bool x 0); lia. }
  destruct (Qlt_bool x 0) eqn:E; cbn [andb].
  - apply Qlt_bool_iff in E. rewrite float_to_int_nonpos by lra.
    unfold is_whole. destruct (Qeq_bool x (inject_Z (Qfloor x))) eqn:W.
    + apply Qeq_bool_iff in W. rewrite (Qceiling_floor_whole x W). reflexivity.
    + assert (W' : ~ x == inject_Z (Qfloor x)).
      { intros H. apply Qeq_bool_iff in H. congruence. }
      rewrite (Qceiling_floor_frac x W'). lia.
  - apply Qlt_bool_false in E. rewrite float_to_int_nonneg by lra. reflexivity.
Qed.

Lemma ulp_exp_mono (d x : Q) :
  ~ d == 0 -> Qabs d <= Qabs x ->
  (ulp_exp (Qred d) <= ulp_exp (Qred x))%Z.
Proof.
  intros Hd Hle.
  assert (Hx : ~ x == 0).
  { intros H. rewrite H in Hle. change (Qabs 0) with 0 in Hle.
    apply Qabs_Qle_condition in Hle. apply Hd. lra. }
  destruct (ulp_exp_spec d Hd) as (Dlo & _ & De).
  destruct (ulp_exp_spec x Hx) as (_ & Xhi & Xe).
  rewrite De, Xe.
  assert (L : (ilog2 (Qabs (Qred d)) < ilog2 (Qabs (Qred x)) + 1)%Z).
  { apply pow2_lt_inv. lra. }
  lia.
Qed.

Lemma round32_multiple (d : Q) (k e : Z) :
  ~ d == 0 -> d == inject_Z k * 2 ^ e ->
  (ulp_exp (Qred d) <= e)%Z -> round32 d == d.
Proof.
  intros Hd Hk He.
  apply (round32_grid d (k * 2 ^ (e - ulp_exp (Qred d)))); [exact Hd |].
  rewrite inject_Z_mult, <- pow2_Z by lia.
  rewrite <- Qmult_assoc, <- pow2_add.
  replace (e - ulp_exp (Qred d) + ulp_exp (Qred d))%Z with e by lia.
  exact Hk.
Qed.

(** The fractional part of a nonnegative binary32 number is a binary32
    number. *)
Lemma frac_part_representable (x : Q) :
  round32 x == x -> 0 <= x ->
  round32 (x - inject_Z (Qfloor x)) == x - inject_Z (Qfloor x).
Proof.
  intros Hr H0.
  set (d := x - inject_Z (Qfloor x)).
  pose proof (Qfloor_le x) as F1.
  pose proof (Qlt_floor x) as F2.
  rewrite inject_Z_plus in F2. change (inject_Z 1) with 1 in F2.
  assert (F3 : (0 <= Qfloor x)%Z).
  { change 0%Z with (Qfloor 0). now apply Qfloor_resp_le. }
  assert (F4 : 0 <= inject_Z (Qfloor x)).
  { change 0 with (inject_Z 0). now rewrite <- Zle_Qle. }
  destruct (Qeq_dec d 0) as [Hd | Hd].
  { rewrite (round32_0 d Hd), Hd. reflexivity. }
  assert (Hx : ~ x == 0).
  { intros H. apply Hd. unfold d. rewrite (Qfloor_comp _ _ H), H. reflexivity. }
  pose proof (round32_shape x Hx) as Hs. cbv zeta in Hs. rewrite Hr in Hs.
  set (e := ulp_exp (Qred x)) in *.
  set (m := rne (Qred x / 2 ^ e)) in *.
  assert (Hmono : (ulp_exp (Qred d) <= e)%Z).
  { apply ulp_exp_mono; [exact Hd |].
    rewrite !Qabs_pos by (unfold d; lra). unfold d. lra. }
  destruct (Z_le_gt_dec 0 e) as [He | He].
  - exfalso. apply Hd. unfold d.
    assert (Hi : x == inject_Z (m * 2 ^ e)).
    { rewrite inject_Z_mult, <- pow2_Z by lia. exact Hs. }
    rewrite (Qfloor_comp _ _ Hi), Qfloor_Z, Hi. ring.
  - set (N := (2 ^ (- e))%Z).
    assert (HN : (0 < N)%Z) by (unfold N; apply Z.pow_pos_nonneg; lia).
    assert (HNq : inject_Z N == 2 ^ (- e)) by (unfold N; rewrite pow2_Z; [reflexivity | lia]).
    pose proof (pow2_opp e) as Po. rewrite <- HNq in Po.
    pose proof (pow2_pos e) as Pe.
    assert (HNp : 0 < inject_Z N).
    { change 0 with (inject_Z 0). now rewrite <- Zlt_Qlt. }
    assert (Hx2 : x == inject_Z m / inject_Z N).
    { rewrite Hs. field_simplify_eq; [ | lra]. nra. }
    assert (Hfl : Qfloor x = (m / N)%Z).
    { rewrite (Qfloor_comp _ _ Hx2). symmetry. apply Zdiv_Qdiv. }
    apply (round32_multiple d (m mod N) e); [exact Hd | | exact Hmono].
    unfold d. rewrite Hfl.
    pose proof (Z.div_mod m N ltac:(lia)) as Hdm.
    assert (Hq : inject_Z m == inject_Z N * inject_Z (m / N) + inject_Z (m mod N)).
    { rewrite <- inject_Z_mult, <- inject_Z_plus. now rewrite <- Hdm. }
    assert (T : inject_Z N * inject_Z (m / N) * 2 ^ e == inject_Z (m / N)).
    { transitivity (inject_Z N * 2 ^ e * inject_Z (m / N));
        [ring | rewrite Po; ring]. }
    rewrite Hs, Hq, Qmult_plus_distr_l, T. ring.
Qed.

(** X7: on a binary32 number [x] with [0 <= x < 2^31] frac is exact: the
    stored integer is the floor of [x], the return value is [x] minus that
    floor without any rounding, it lies in [0, 1), and the two add up to
    [x]. *)
Theorem frac_nonneg_exact (x : Q) :
  round32 x == x -> 0 <= x -> x < 2 ^ 31 ->
  let r := fst (@frac binary32 x) in
  let i := snd (@frac binary32 x) in
  i = Qfloor x
  /\ r == x - inject_Z (Qfloor x)
  /\ 0 <= r < 1
  /\ r + inject_Z i == x.
Proof.
  intros Hr H0 Hhi r i. subst r i.
  assert (Hlo : - (2 ^ 24) < x).
  { apply Qlt_le_trans with 0; [reflexivity | exact H0]. }
  destruct (frac_parts x Hlo Hhi) as (Hi & _ & _).
  pose proof (frac_int_exact x Hr Hlo Hhi) as Hc.
  fold (frac_int x) in Hi.
  assert (Efl : frac_int x = Qfloor x).
  { unfold frac_int.
    assert (F : Qlt_bool x 0 = false) by (apply Qlt_bool_false; exact H0).
    rewrite F, float_to_int_nonneg by exact H0. lia. }
  assert (Ew : wrap_int (frac_int x) = Qfloor x).
  { rewrite wrap_int_small; [exact Efl |].
    change (2 ^ 24)%Z with 16777216%Z in Hi.
    change (2 ^ 31)%Z with 2147483648%Z in *. lia. }
  assert (Ei : snd (@frac binary32 x) = Qfloor x).
  { unfold frac. cbn [snd]. fold (frac_int x). exact Ew. }
  assert (Er : fst (@frac binary32 x) == x - inject_Z (Qfloor x)).
  { unfold frac, fsub, int_to_float. cbn [fst rnd binary32].
    fold (frac_int x). rewrite Ew.
    rewrite Efl in Hc.
    rewrite (round32_eq _ (x - inject_Z (Qfloor x))) by (rewrite Hc; reflexivity).
    apply frac_part_representable; assumption. }
  pose proof (Qfloor_le x) as F1.
  pose proof (Qlt_floor x) as F2.
  rewrite inject_Z_plus in F2. change (inject_Z 1) with 1 in F2.
  split; [exact Ei |]. split; [exact Er |]. rewrite Er, Ei.
  split; [split; lra | ring].
Qed.

(** ** The cubic weights *)

Ltac unfold_w :=
  unfold cubic_w0, cubic_w1, cubic_w2, cubic_w3,
    fmul, fadd, fsub, fdiv, fneg, exact, rnd;
  change (1 / 6) with (1 # 6).

(** Closed forms of the weights in exact arithmetic. *)
Lemma exact_w_forms (a : Q) :
  @cubic_w0 exact a == (1 # 6) * ((1 - a) * ((1 - a) * (1 - a)))
  /\ @cubic_w1 exact a == (1 # 6) * (3 * (a * a * a) - 6 * (a * a) + 4)
  /\ @cubic_w2 exact a
     == (1 # 6) * (- 3 * (a * a * a) + 3 * (a * a) + 3 * a + 1)
  /\ @cubic_w3 exact a == (1 # 6) * (a * a * a).
Proof. unfold_w. repeat split; ring. Qed.

Lemma exact_g_unfold (a : Q) :
  @cubic_g0 exact a = @cubic_w0 exact a + @cubic_w1 exact a
  /\ @cubic_g1 exact a = @cubic_w2 exact a + @cubic_w3 exact a.
Proof. split; reflexivity. Qed.

(** X8: in exact arithmetic the weights are mirror images of each other:
    [w0(a) = w3(1-a)], [w1(a) = w2(1-a)], hence [g0(a) = g1(1-a)] and
    [g0(a) + g0(1-a) = 1]. *)
Theorem cubic_mirror_symmetry (a : Q) :
  @cubic_w0 exact a == @cubic_w3 exact (1 - a)
  /\ @cubic_w1 exact a == @cubic_w2 exact (1 - a)
  /\ @cubic_g0 exact a == @cubic_g1 exact (1 - a)
  /\ @cubic_g0 exact a + @cubic_g0 exact (1 - a) == 1.
Proof.
  unfold cubic_g0, cubic_g1. unfold_w. repeat split; ring.
Qed.

(** Bounds of the weights on the closed unit interval. *)
Lemma exact_w_bounds (a : Q) :
  0 <= a -> a <= 1 ->
  0 <= @cubic_w0 exact a
  /\ 4 * @cubic_w0 exact a <= @cubic_w1 exact a
  /\ 1 # 6 <= @cubic_w1 exact a
  /\ 1 # 6 <= @cubic_w2 exact a
  /\ 4 * @cubic_w3 exact a <= @cubic_w2 exact a
  /\ 0 <= @cubic_w3 exact a.
Proof.
  intros Ha0 Ha1.
  destruct (exact_w_forms a) as (F0 & F1 & F2 & F3).
  rewrite F0, F1, F2, F3.
  set (b := 1 - a).
  assert (Hb0 : 0 <= b) by (unfold b; lra).
  assert (Hb1 : b <= 1) by (unfold b; lra).
  assert (Ha2 : 0 <= a * a <= a) by (split; nra).
  assert (Hb2 : 0 <= b * b <= b) by (split; nra).
  assert (Ha3 : 0 <= a * a * a <= a * a) by (split; nra).
  assert (Hb3 : 0 <= b * (b * b) <= b * b) by (split; nra).
  assert (Eb2 : b * b == 1 - 2 * a + a * a) by (unfold b; ring).
  assert (Eb3 : b * (b * b) == 1 - 3 * a + 3 * (a * a) - a * a * a)
    by (unfold b; ring).
  (* a (7 a^2 - 18 a + 12) >= 0 and likewise at b *)
  assert (Qa : 0 <= a * (7 * (a * a) - 18 * a + 12)) by nra.
  assert (Qb : 0 <= b * (7 * (b * b) - 18 * b + 12)) by nra.
  assert (Eqb : b * (7 * (b * b) - 18 * b + 12)
                == 1 + 3 * a + 3 * (a * a) - 7 * (a * a * a))
    by (unfold b; ring).
  repeat split; nra.
Qed.

Lemma exact_g_bounds (a : Q) :
  0 <= a -> a <= 1 ->
  (1 # 6 <= @cubic_g0 exact a <= 5 # 6)
  /\ (1 # 6 <= @cubic_g1 exact a <= 5 # 6).
Proof.
  intros Ha0 Ha1.
  destruct (exact_w_bounds a Ha0 Ha1) as (B0 & _ & B1 & B2 & _ & B3).
  pose proof (exact_partition a) as P.
  destruct (exact_g_unfold a) as [-> ->].
  repeat split; lra.
Qed.

(** X9: in exact arithmetic, for [0 <= a <= 1], both amplitudes lie in
    [1/6, 5/6], the offset [h0(a)] lies in [-1/5, 0] and the offset [h1(a)]
    in [1, 6/5]: the first tap falls between texels [px - 1] and [px], the
    second between [px + 1] and [px + 2]. *)
Theorem cubic_offsets_range (a : Q) :
  0 <= a -> a <= 1 ->
  (1 # 6 <= @cubic_g0 exact a <= 5 # 6)
  /\ (1 # 6 <= @cubic_g1 exact a <= 5 # 6)
  /\ (- (1 # 5) <= @cubic_h0 exact a <= 0)
  /\ (1 <= @cubic_h1 exact a <= 6 # 5).
Proof.
  intros Ha0 Ha1.
  destruct (exact_g_bounds a Ha0 Ha1) as [G0 G1].
  split; [exact G0 |]. split; [exact G1 |].
  destruct (exact_w_bounds a Ha0 Ha1) as (B0 & B01 & B1 & B2 & B32 & B3).
  unfold cubic_h0, cubic_h1, fsub, fadd, fdiv. cbn [rnd exact].
  destruct (exact_g_unfold a) as [E0 E1].
  assert (Q0 : 4 # 5 <= @cubic_w1 exact a / @cubic_g0 exact a).
  { apply Qle_shift_div_l; [lra | rewrite E0; lra]. }
  assert (Q1 : @cubic_w1 exact a / @cubic_g0 exact a <= 1).
  { apply Qle_shift_div_r; [lra | rewrite E0; lra]. }
  assert (Q2 : 0 <= @cubic_w3 exact a / @cubic_g1 exact a).
  { apply Qle_shift_div_l; [lra | lra]. }
  assert (Q3 : @cubic_w3 exact a / @cubic_g1 exact a <= 1 # 5).
  { apply Qle_shift_div_r; [lra | rewrite E1; lra]. }
  repeat split; lra.
Qed.

#[local] Instance round32_proper : Proper (Qeq ==> Qeq) round32.
Proof. intros x y H. now rewrite (round32_eq x y H). Qed.

Lemma binary32_g_Qeq (a a' : Q) :
  a == a' ->
  @cubic_g0 binary32 a == @cubic_g0 binary32 a'
  /\ @cubic_g1 binary32 a == @cubic_g1 binary32 a'.
Proof.
  intros H.
  unfold cubic_g0, cubic_g1, cubic_w0, cubic_w1, cubic_w2, cubic_w3,
    fadd, fsub, fmul, fdiv, fneg.
  cbn [rnd binary32]. rewrite H. split; reflexivity.
Qed.

(** In binary32 the fractional offset lies in the closed unit interval. *)
Lemma binary32_pixel_frac (x : Q) :
  0 <= @pixel_frac binary32 x /\ @pixel_frac binary32 x <= 1.
Proof.
  unfold pixel_frac, pixel_int, floorf, fsub. cbn [rnd binary32].
  pose proof (Qfloor_le x) as F1.
  pose proof (Qlt_floor x) as F2.
  rewrite inject_Z_plus in F2. change (inject_Z 1) with 1 in F2.
  apply round32_unit_interval; lra.
Qed.

(** X10: for [0 <= a < 1] each weight computed in binary32 is within
    6e-7 of its exact value (3e-7 for w0, 1e-7 for w3). *)
Theorem cubic_weights_accuracy (a : Q) :
  0 <= a -> a < 1 ->
  Qabs (@cubic_w0 binary32 a - @cubic_w0 exact a) <= 3 # 10000000
  /\ Qabs (@cubic_w1 binary32 a - @cubic_w1 exact a) <= 6 # 10000000
  /\ Qabs (@cubic_w2 binary32 a - @cubic_w2 exact a) <= 6 # 10000000
  /\ Qabs (@cubic_w3 binary32 a - @cubic_w3 exact a) <= 1 # 10000000.
Proof.
  intros Ha0 Ha1. repeat split; apply approx_abs.
  - exact (w0_approx binary32_standard_model a Ha0 Ha1).
  - exact (w1_approx binary32_standard_model a Ha0 Ha1).
  - exact (w2_approx binary32_standard_model a Ha0 Ha1).
  - exact (w3_approx binary32_standard_model a Ha0 Ha1).
Qed.

Lemma binary32_g_below_one (a : Q) :
  0 <= a -> a < 1 ->
  (1 # 6) - (1 # 1000000) <= @cubic_g0 binary32 a
  /\ (1 # 6) - (1 # 1000000) <= @cubic_g1 binary32 a.
Proof.
  intros Ha0 Ha1.
  pose proof binary32_standard_model as Hstd.
  destruct (exact_g_bounds a Ha0 ltac:(lra)) as [G0 G1].
  destruct (exact_g_unfold a) as [E0 E1]. rewrite E0 in G0. rewrite E1 in G1.
  pose proof (w0_approx Hstd a Ha0 Ha1) as A0.
  pose proof (w1_approx Hstd a Ha0 Ha1) as A1.
  pose proof (w2_approx Hstd a Ha0 Ha1) as A2.
  pose proof (w3_approx Hstd a Ha0 Ha1) as A3.
  step_add Hstd A0 A1 1 T0.
  step_add Hstd A2 A3 1 T1.
  unfold cubic_g0, cubic_g1. unfold approx in T0, T1. split; lra.
Qed.

Lemma binary32_g_positive (a : Q) :
  0 <= a -> a <= 1 ->
  1 # 7 <= @cubic_g0 binary32 a /\ 1 # 7 <= @cubic_g1 binary32 a.
Proof.
  intros Ha0 Ha1. destruct (Qlt_le_dec a 1) as [Hlt | Hge].
  - destruct (binary32_g_below_one a Ha0 Hlt). split; lra.
  - assert (E : a == 1) by (apply Qle_antisym; assumption).
    destruct (binary32_g_Qeq a 1 E) as [-> ->].
    split; vm_compute; discriminate.
Qed.

(** Rounding a number of magnitude at most [M] gives a number of magnitude
    at most [M'] as soon as [M'] leaves room for the rounding error. *)
Lemma round32_abs_bound (y M M' : Q) :
  Qabs y <= M -> Qle_bool (M + rnd_err M) M' = true ->
  Qabs (round32 y) <= M'.
Proof.
  intros Hy HM. apply Qle_bool_iff in HM. unfold rnd_err in HM.
  pose proof (round32_error y) as He.
  pose proof (Qabs_triangle (round32 y - y) y) as Ht.
  assert (E : round32 y - y + y == round32 y) by ring.
  rewrite E in Ht.
  assert (P : 0 < 2 ^ (-24)) by reflexivity.
  assert (Hm : 2 ^ (-24) * Qabs y <= 2 ^ (-24) * M).
  { apply Qmult_le_l; assumption. }
  lra.
Qed.

(** For a 32-bit extent and a coordinate of magnitude up to 2^64 no step
    of the conversion to pixel space comes near the largest binary32
    number. *)
Lemma pixel_coord_finite (u : float) (W : Z) :
  (Z.abs W <= 2 ^ 32)%Z -> Qabs u <= 2 ^ 64 ->
  Qabs (@int_to_float binary32 W) <= 2 ^ 33
  /\ Qabs (@fmul binary32 u (@int_to_float binary32 W)) <= 2 ^ 98
  /\ Qabs (@pixel_coord binary32 u W) <= 2 ^ 100.
Proof.
  intros HW Hu.
  assert (B0 : Qabs (inject_Z W) <= 2 ^ 32).
  { rewrite Qabs_inject_Z. rewrite (pow2_Z 32) by lia.
    rewrite <- Zle_Qle. exact HW. }
  assert (B1 : Qabs (@int_to_float binary32 W) <= 2 ^ 33).
  { unfold int_to_float. cbn [rnd binary32].
    apply (round32_abs_bound _ (2 ^ 32));
      [exact B0 | vm_compute; reflexivity]. }
  assert (B2 : Qabs (u * @int_to_float binary32 W) <= 2 ^ 97).
  { rewrite Qabs_Qmult.
    pose proof (Qabs_nonneg u).
    pose proof (Qabs_nonneg (@int_to_float binary32 W)).
    apply Qle_trans with (2 ^ 64 * 2 ^ 33); [ | vm_compute; discriminate].
    apply Qmult_le_compat_nonneg; split; assumption. }
  assert (B3 : Qabs (@fmul binary32 u (@int_to_float binary32 W))
               <= 2 ^ 98).
  { unfold fmul at 1. cbn [rnd binary32].
    apply (round32_abs_bound _ (2 ^ 97));
      [exact B2 | vm_compute; reflexivity]. }
  split; [exact B1 |]. split; [exact B3 |].
  unfold pixel_coord, fsub. cbn [rnd binary32].
  apply (round32_abs_bound _ (2 ^ 99)); [ | vm_compute; reflexivity].
  pose proof (Qabs_triangle (@fmul binary32 u (@int_to_float binary32 W))
                            (- (1 # 2))) as Ht.
  change (Qabs (- (1 # 2))) with (1 # 2) in Ht.
  apply Qle_trans with (1 := Ht).
  apply Qle_trans with (2 ^ 98 + (1 # 2)); [lra | vm_compute; discriminate].
Qed.

Lemma floorf_abs_bound (x M : Q) : Qabs x <= M -> Qabs (floorf x) <= M + 1.
Proof.
  intros Hx. apply Qabs_Qle_condition in Hx. unfold floorf.
  pose proof (Qfloor_le x) as F1.
  pose proof (Qlt_floor x) as F2.
  rewrite inject_Z_plus in F2. change (inject_Z 1) with 1 in F2.
  apply Qabs_Qle_condition. split; lra.
Qed.

(** X11: in binary32, for an extent that fits 32 bits and a coordinate of
    magnitude at most 2^64, every step of the conversion to pixel space in
    kernel_image_interp_bicubic stays finite (below FLT_MAX), the fractional
    offset passed to the cubic helpers lies in the closed interval [0, 1],
    and there both amplitudes are at least 1/7: cubic_h0 and cubic_h1 do
    not divide by zero. *)
Theorem bicubic_no_division_by_zero (u : float) (W : Z) :
  (Z.abs W <= 2 ^ 32)%Z -> Qabs u <= 2 ^ 64 ->
  let x := @pixel_coord binary32 u W in
  let f := @pixel_frac binary32 x in
  (Qabs (@int_to_float binary32 W) <= FLT_MAX
   /\ Qabs (@fmul binary32 u (@int_to_float binary32 W)) <= FLT_MAX
   /\ Qabs x <= FLT_MAX
   /\ Qabs (floorf x) <= FLT_MAX)
  /\ 0 <= f <= 1
  /\ 1 # 7 <= @cubic_g0 binary32 f /\ 1 # 7 <= @cubic_g1 binary32 f
  /\ ~ @cubic_g0 binary32 f == 0 /\ ~ @cubic_g1 binary32 f == 0.
Proof.
  intros HW Hu x f.
  destruct (pixel_coord_finite u W HW Hu) as (B1 & B2 & B3). fold x in B3.
  pose proof (floorf_abs_bound x _ B3) as B4.
  assert (M1 : 2 ^ 33 <= FLT_MAX) by (vm_compute; discriminate).
  assert (M2 : 2 ^ 98 <= FLT_MAX) by (vm_compute; discriminate).
  assert (M3 : 2 ^ 100 <= FLT_MAX) by (vm_compute; discriminate).
  assert (M4 : 2 ^ 100 + 1 <= FLT_MAX) by (vm_compute; discriminate).
  split.
  { split; [eapply Qle_trans; eassumption |].
    split; [eapply Qle_trans; eassumption |].
    split; eapply Qle_trans; eassumption. }
  destruct (binary32_pixel_frac x) as [F0 F1]. fold f in F0, F1.
  destruct (binary32_g_positive f F0 F1) as [G0 G1].
  split; [split; assumption |]. split; [exact G0 |]. split; [exact G1 |].
  split; intros E; rewrite E in *; [apply G0 | apply G1]; reflexivity.
Qed.

(** The offset can be exactly 1. *)
Lemma binary32_pixel_frac_one :
  @pixel_frac binary32 (- (1 # 1073741824)) = 1.
Proof. vm_compute. reflexivity. Qed.

(** ** The bicubic reconstruction *)

Lemma exact_pixel_frac (x : Q) :
  0 <= @pixel_frac exact x /\ @pixel_frac exact x < 1.
Proof.
  unfold pixel_frac, pixel_int, floorf, fsub. cbn [rnd exact].
  pose proof (Qfloor_le x) as F1.
  pose proof (Qlt_floor x) as F2.
  rewrite inject_Z_plus in F2. change (inject_Z 1) with 1 in F2.
  split; lra.
Qed.

Lemma convex2 (p q s t lo hi : Q) :
  0 <= p -> 0 <= q -> p + q == 1 ->
  lo <= s <= hi -> lo <= t <= hi -> lo <= p * s + q * t <= hi.
Proof. intros Hp Hq Hpq Hs Ht. split; nra. Qed.

Lemma exact_g_convex (a : Q) :
  0 <= a -> a <= 1 ->
  0 <= @cubic_g0 exact a /\ 0 <= @cubic_g1 exact a
  /\ @cubic_g0 exact a + @cubic_g1 exact a == 1.
Proof.
  intros Ha0 Ha1. destruct (exact_g_bounds a Ha0 Ha1) as [G0 G1].
  repeat split; try lra. apply exact_amplitude_sum.
Qed.

Lemma four_tap_within (g0x g1x g0y g1y s00 s10 s01 s11 lo hi : Q) :
  0 <= g0x -> 0 <= g1x -> g0x + g1x == 1 ->
  0 <= g0y -> 0 <= g1y -> g0y + g1y == 1 ->
  lo <= s00 <= hi -> lo <= s10 <= hi -> lo <= s01 <= hi -> lo <= s11 <= hi ->
  lo <= g0y * (g0x * s00 + g1x * s10) + g1y * (g0x * s01 + g1x * s11) <= hi.
Proof.
  intros. apply convex2; try assumption; apply convex2; assumption.
Qed.

Lemma exact_amplitudes_convex (x : Q) :
  0 <= @cubic_g0 exact (@pixel_frac exact x)
  /\ 0 <= @cubic_g1 exact (@pixel_frac exact x)
  /\ @cubic_g0 exact (@pixel_frac exact x)
     + @cubic_g1 exact (@pixel_frac exact x) == 1.
Proof.
  destruct (exact_pixel_frac x). apply exact_g_convex; lra.
Qed.

Section Within.
Variables (env : Env) (info : KernelImageInfo) (uv : float2) (lo hi : Q).

(** X12: in exact arithmetic the scalar bicubic reconstruction never leaves
    the range of the values read: if every scalar read lies between [lo]
    and [hi], so does the result (a constant image is reproduced). *)
Theorem bicubic_within_range :
  reads_within env lo hi ->
  lo <= eval env (@kernel_image_interp_bicubic exact float
                    (@float_value exact) info uv) <= hi.
Proof.
  intros Hr.
  destruct (exact_amplitudes_convex
              (@pixel_coord exact (f2x uv) (info_width info)))
    as (X0 & X1 & X2).
  destruct (exact_amplitudes_convex
              (@pixel_coord exact (f2y uv) (info_height info)))
    as (Y0 & Y1 & Y2).
  destruct (bicubic_generic (R := exact) (V := @float_value exact)
              env info uv) as [-> _].
  unfold bicubic_formula.
  cbn [vadd vscale float_value ccl_gpu_image_object_read_2D].
  unfold fadd, fmul. cbn [rnd exact].
  apply four_tap_within; try assumption; apply Hr.
Qed.

(** X13: the same for the 4-channel reconstruction, channel by channel. *)
Theorem bicubic_float4_within_range :
  reads4_within env lo hi ->
  float4_within lo hi
    (eval env (@kernel_image_interp_bicubic exact float4
                 (@float4_value exact) info uv)).
Proof.
  intros Hr.
  destruct (exact_amplitudes_convex
              (@pixel_coord exact (f2x uv) (info_width info)))
    as (X0 & X1 & X2).
  destruct (exact_amplitudes_convex
              (@pixel_coord exact (f2y uv) (info_height info)))
    as (Y0 & Y1 & Y2).
  destruct (bicubic_generic (R := exact) (V := @float4_value exact)
              env info uv) as [-> _].
  unfold bicubic_formula.
  cbn [vadd vscale float4_value ccl_gpu_image_object_read_2D].
  unfold float4_within, float4_add, float4_scale.
  cbn [f4x f4y f4z f4w]. unfold fadd, fmul. cbn [rnd exact].
  pose proof (fun t x y => proj1 (Hr t x y)) as Rx.
  pose proof (fun t x y => proj1 (proj2 (Hr t x y))) as Ry.
  pose proof (fun t x y => proj1 (proj2 (proj2 (Hr t x y)))) as Rz.
  pose proof (fun t x y => proj2 (proj2 (proj2 (Hr t x y)))) as Rw.
  split; [ | split; [ | split]]; apply four_tap_within;
    first [assumption | apply Rx | apply Ry | apply Rz | apply Rw].
Qed.
End Within.

Lemma exact_w0_pos (a : Q) : a < 1 -> 0 < @cubic_w0 exact a.
Proof.
  intros Ha. destruct (exact_w_forms a) as (F0 & _). rewrite F0.
  assert (H1 : 0 < 1 - a) by lra.
  assert (H2 : 0 < (1 - a) * (1 - a)) by nra.
  assert (H3 : 0 < (1 - a) * ((1 - a) * (1 - a))) by nra.
  lra.
Qed.

Section Taps.
Variables (W : Z) (u : Q).
Hypothesis HW : (0 < W)%Z.

Lemma tap0_pixel :
  let x := @pixel_coord exact u W in
  let a := @pixel_frac exact x in
  @tap0 exact u W * inject_Z W - (1 # 2)
  == inject_Z (Qfloor x - 1) + @cubic_w1 exact a / @cubic_g0 exact a
  /\ 0 <= @cubic_w1 exact a / @cubic_g0 exact a
  /\ @cubic_w1 exact a / @cubic_g0 exact a < 1.
Proof.
  intros x a. pose proof (W_pos W HW) as P.
  destruct (exact_pixel_frac x) as [A0 A1]. fold a in A0, A1.
  destruct (exact_g_bounds a A0 ltac:(lra)) as [G0 _].
  destruct (exact_w_bounds a A0 ltac:(lra)) as (B0 & _ & B1 & _).
  pose proof (exact_w0_pos a A1) as P0.
  destruct (exact_g_unfold a) as [E0 _].
  split; [ | split].
  - unfold tap0, cubic_h0. exact_arith. fold x. fold a.
    unfold pixel_int, floorf, Z.sub.
    rewrite inject_Z_plus, inject_Z_opp. change (inject_Z 1) with 1.
    field. split; lra.
  - apply Qle_shift_div_l; lra.
  - apply Qlt_shift_div_r; [lra | rewrite E0; lra].
Qed.

Lemma tap1_pixel :
  let x := @pixel_coord exact u W in
  let a := @pixel_frac exact x in
  @tap1 exact u W * inject_Z W - (1 # 2)
  == inject_Z (Qfloor x + 1) + @cubic_w3 exact a / @cubic_g1 exact a
  /\ 0 <= @cubic_w3 exact a / @cubic_g1 exact a
  /\ @cubic_w3 exact a / @cubic_g1 exact a < 1.
Proof.
  intros x a. pose proof (W_pos W HW) as P.
  destruct (exact_pixel_frac x) as [A0 A1]. fold a in A0, A1.
  destruct (exact_g_bounds a A0 ltac:(lra)) as [_ G1].
  destruct (exact_w_bounds a A0 ltac:(lra)) as (_ & _ & _ & B2 & _ & B3).
  destruct (exact_g_unfold a) as [_ E1].
  split; [ | split].
  - unfold tap1, cubic_h1. exact_arith. fold x. fold a.
    unfold pixel_int, floorf.
    rewrite inject_Z_plus. change (inject_Z 1) with 1.
    field. split; lra.
  - apply Qle_shift_div_l; lra.
  - apply Qlt_shift_div_r; [lra | rewrite E1; lra].
Qed.
End Taps.

Lemma bicubic_bspline_eq (info : KernelImageInfo) (texel : Z -> Z -> Q)
        (uv : float2) :
  (0 < info_width info)%Z -> (0 < info_height info)%Z ->
  let x := @pixel_coord exact (f2x uv) (info_width info) in
  let y := @pixel_coord exact (f2y uv) (info_height info) in
  eval (image_env info texel)
       (@kernel_image_interp_bicubic exact float (@float_value exact)
                                     info uv)
  == bspline16 texel (@pixel_frac exact x) (@pixel_frac exact y)
               (Qfloor x) (Qfloor y).
Proof.
  intros HW HH x y.
  destruct (tap0_pixel _ (f2x uv) HW) as (X0 & X0a & X0b).
  destruct (tap1_pixel _ (f2x uv) HW) as (X1 & X1a & X1b).
  destruct (tap0_pixel _ (f2y uv) HH) as (Y0 & Y0a & Y0b).
  destruct (tap1_pixel _ (f2y uv) HH) as (Y1 & Y1a & Y1b).
  fold x in X0, X0a, X0b, X1, X1a, X1b.
  fold y in Y0, Y0a, Y0b, Y1, Y1a, Y1b.
  set (a := @pixel_frac exact x) in *.
  set (b := @pixel_frac exact y) in *.
  destruct (exact_pixel_frac x) as [A0 A1]. fold a in A0, A1.
  destruct (exact_pixel_frac y) as [B0 B1]. fold b in B0, B1.
  destruct (exact_g_bounds a A0 ltac:(lra)) as [Ga0 Ga1].
  destruct (exact_g_bounds b B0 ltac:(lra)) as [Gb0 Gb1].
  destruct (bicubic_generic (R := exact) (V := @float_value exact)
              (image_env info texel) info uv) as [-> _].
  unfold bicubic_formula.
  cbn [vadd vscale float_value ccl_gpu_image_object_read_2D].
  unfold image_env, bilinear_read. unfold fadd, fmul. cbn [rnd exact].
  fold x y. fold a b.
  rewrite (bilerp_at texel _ _ _ _ _ _ X0 X0a X0b Y0 Y0a Y0b).
  rewrite (bilerp_at texel _ _ _ _ _ _ X1 X1a X1b Y0 Y0a Y0b).
  rewrite (bilerp_at texel _ _ _ _ _ _ X0 X0a X0b Y1 Y1a Y1b).
  rewrite (bilerp_at texel _ _ _ _ _ _ X1 X1a X1b Y1 Y1a Y1b).
  unfold bspline16, bspline_row.
  replace (Qfloor x - 1 + 1)%Z with (Qfloor x) by lia.
  replace (Qfloor y - 1 + 1)%Z with (Qfloor y) by lia.
  replace (Qfloor x + 1 + 1)%Z with (Qfloor x + 2)%Z by lia.
  replace (Qfloor y + 1 + 1)%Z with (Qfloor y + 2)%Z by lia.
  destruct (exact_g_unfold a) as [Ea0 Ea1].
  destruct (exact_g_unfold b) as [Eb0 Eb1].
  rewrite Ea0, Ea1, Eb0, Eb1 in *.
  generalize dependent (@cubic_w0 exact a). intros w0a.
  generalize dependent (@cubic_w1 exact a). intros w1a.
  generalize dependent (@cubic_w2 exact a). intros w2a.
  generalize dependent (@cubic_w3 exact a). intros w3a.
  generalize dependent (@cubic_w0 exact b). intros w0b.
  generalize dependent (@cubic_w1 exact b). intros w1b.
  generalize dependent (@cubic_w2 exact b). intros w2b.
  generalize dependent (@cubic_w3 exact b). intros w3b.
  intros. field. repeat split; lra.
Qed.

(** X14: with the exact bilinear fetch from a single-channel image as read
    primitive, the four taps of kernel_image_interp_bicubic give, in exact
    arithmetic, the full cubic B-spline filter over the 4 by 4 texels
    around the sample point: the sum of [wi(fx) * wj(fy) * texel] over
    columns [px - 1 .. px + 2] and rows [py - 1 .. py + 2]. *)
Theorem bicubic_is_bspline (info : KernelImageInfo) (texel : Z -> Z -> Q)
        (uv : float2) :
  (0 < info_width info)%Z -> (0 < info_height info)%Z ->
  let x := @pixel_coord exact (f2x uv) (info_width info) in
  let y := @pixel_coord exact (f2y uv) (info_height info) in
  eval (image_env info texel)
       (@kernel_image_interp_bicubic exact float (@float_value exact)
                                     info uv)
  == bspline16 texel (@pixel_frac exact x) (@pixel_frac exact y)
               (Qfloor x) (Qfloor y).
Proof. exact (bicubic_bspline_eq info texel uv). Qed.

(** The weights have total 1 and first moment [a]. *)
Lemma exact_w_moments (a : Q) :
  @cubic_w0 exact a + @cubic_w1 exact a + @cubic_w2 exact a
  + @cubic_w3 exact a == 1
  /\ - @cubic_w0 exact a + @cubic_w2 exact a + 2 * @cubic_w3 exact a == a.
Proof. unfold_w. split; ring. Qed.

Lemma bspline16_affine (texel : Z -> Z -> Q) (c0 c1 c2 a b : Q) (i j : Z) :
  (forall p q : Z, texel p q == c0 + c1 * inject_Z p + c2 * inject_Z q) ->
  bspline16 texel a b i j
  == c0 + c1 * (inject_Z i + a) + c2 * (inject_Z j + b).
Proof.
  intros Haff. unfold bspline16, bspline_row. rewrite !Haff.
  unfold Z.sub. rewrite !inject_Z_plus, !inject_Z_opp.
  change (inject_Z 1) with 1. change (inject_Z 2) with 2.
  destruct (exact_w_moments a) as [A0 A1].
  destruct (exact_w_moments b) as [B0 B1].
  generalize dependent (@cubic_w0 exact a). intros w0a.
  generalize dependent (@cubic_w1 exact a). intros w1a.
  generalize dependent (@cubic_w2 exact a). intros w2a.
  generalize dependent (@cubic_w3 exact a). intros w3a.
  generalize dependent (@cubic_w0 exact b). intros w0b.
  generalize dependent (@cubic_w1 exact b). intros w1b.
  generalize dependent (@cubic_w2 exact b). intros w2b.
  generalize dependent (@cubic_w3 exact b). intros w3b.
  intros.
  assert (E1 : w1a == 1 - w0a - w2a - w3a) by lra.
  assert (E2 : w1b == 1 - w0b - w2b - w3b) by lra.
  assert (E3 : a == - w0a + w2a + 2 * w3a) by lra.
  assert (E4 : b == - w0b + w2b + 2 * w3b) by lra.
  rewrite E1, E2, E3, E4. ring.
Qed.

Lemma bilerp_affine (texel : Z -> Z -> Q) (c0 c1 c2 xb yb : Q) :
  (forall p q : Z, texel p q == c0 + c1 * inject_Z p + c2 * inject_Z q) ->
  bilerp texel xb yb == c0 + c1 * xb + c2 * yb.
Proof.
  intros Haff. unfold bilerp. rewrite !Haff.
  rewrite !inject_Z_plus. change (inject_Z 1) with 1. ring.
Qed.

(** X15: on an image whose texels are an affine function of the pixel
    coordinates, the bicubic reconstruction (exact arithmetic, exact
    bilinear fetch) returns that affine function at the sample point
    [(u*W - 1/2, v*H - 1/2)], and so does the direct bilinear read. *)
Theorem bicubic_affine_image (info : KernelImageInfo) (texel : Z -> Z -> Q)
        (uv : float2) (c0 c1 c2 : Q) :
  (0 < info_width info)%Z -> (0 < info_height info)%Z ->
  (forall p q : Z, texel p q == c0 + c1 * inject_Z p + c2 * inject_Z q) ->
  let env := image_env info texel in
  let x := f2x uv * inject_Z (info_width info) - (1 # 2) in
  let y := f2y uv * inject_Z (info_height info) - (1 # 2) in
  eval env (@kernel_image_interp_bicubic exact float (@float_value exact)
                                         info uv)
  == c0 + c1 * x + c2 * y
  /\ env _ (image_object_read_2D_float (info_data info) (f2x uv) (f2y uv))
     == c0 + c1 * x + c2 * y.
Proof.
  intros HW HH Haff env x y. split.
  - unfold env. rewrite (bicubic_bspline_eq info texel uv HW HH).
    rewrite (bspline16_affine texel c0 c1 c2 _ _ _ _ Haff).
    unfold pixel_frac, pixel_int, floorf, pixel_coord, fsub, fmul,
      int_to_float. cbn [rnd exact]. fold x y. ring.
  - unfold env, image_env, bilinear_read. fold x y.
    apply bilerp_affine. exact Haff.
Qed.

(* ================================================================== *)
(** ** Worked instances of the further properties *)

(** Texture 0 of the scene is a full image in slot 0. *)
Lemma interp_full_image_witness :
  let uv := make_float2 (3 # 8) (3 # 8) in
  let p := @kernel_image_interp binary32 Scene.NONE 0 uv Scene.duv in
  let info := Scene.info_of 0 in
  (eval Scene.env p
   = eval Scene.env (@kernel_image_interp_sample binary32 info uv)
   /\ trace Scene.env p
      = call (image_textures_fetch 0) :: call (image_info_fetch 0)
        :: trace Scene.env (@kernel_image_interp_sample binary32 info uv))
  /\ calls_to TileWrap Scene.env p = false
  /\ calls_to TileMap Scene.env p = false.
Proof.
  assert (Hne : 0%Z <> Scene.NONE) by discriminate.
  exact (@interp_full_image binary32 Scene.NONE Scene.env 0
           (make_float2 (3 # 8) (3 # 8)) Scene.duv Hne eq_refl).
Defined.

(** Slot 2 of the scene holds a 4-channel image with smart
    interpolation. *)
Lemma sample_four_channel_witness :
  let uv := make_float2 (3 # 8) (3 # 8) in
  let info := Scene.info_of 2 in
  let p := @kernel_image_interp_sample binary32 info uv in
  eval Scene.env p
  = eval Scene.env
         (@kernel_image_interp_bicubic binary32 float4
                                       (@float4_value binary32) info uv)
  /\ count_calls HardwareRead (trace Scene.env p) = 4%nat.
Proof.
  exact (@sample_four_channel binary32 Scene.env (Scene.info_of 2)
           (make_float2 (3 # 8) (3 # 8)) eq_refl).
Defined.

(** A byte4 image with cubic interpolation and a half4 image with smart
    interpolation are sampled by the same program. *)
Lemma sample_depends_on_classes_witness :
  let a := make_KernelImageInfo 7 IMAGE_DATA_TYPE_BYTE4 INTERPOLATION_CUBIC
                                4 4 in
  let b := make_KernelImageInfo 7 IMAGE_DATA_TYPE_HALF4 INTERPOLATION_SMART
                                4 4 in
  @kernel_image_interp_sample binary32 a (make_float2 (3 # 8) (3 # 8))
  = @kernel_image_interp_sample binary32 b (make_float2 (3 # 8) (3 # 8)).
Proof.
  exact (@sample_depends_on_classes binary32
           (make_KernelImageInfo 7 IMAGE_DATA_TYPE_BYTE4 INTERPOLATION_CUBIC
                                 4 4)
           (make_KernelImageInfo 7 IMAGE_DATA_TYPE_HALF4 INTERPOLATION_SMART
                                 4 4)
           (make_float2 (3 # 8) (3 # 8))
           eq_refl eq_refl eq_refl eq_refl eq_refl).
Defined.

(** frac at -3 and at -5/2: the stored integers are -4 and -3. *)
Lemma frac_integer_floor_witness :
  snd (@frac binary32 (- (3))) = (-4)%Z
  /\ snd (@frac binary32 (- (5 # 2))) = (-3)%Z.
Proof.
  split.
  - apply (@frac_integer_floor binary32 (- (3))). vm_compute.
    split; reflexivity.
  - apply (@frac_integer_floor binary32 (- (5 # 2))). vm_compute.
    split; reflexivity.
Defined.

(** frac at 5/2. *)
Lemma frac_nonneg_exact_witness :
  let x : Q := 5 # 2 in
  let r := fst (@frac binary32 x) in
  let i := snd (@frac binary32 x) in
  i = Qfloor x
  /\ r == x - inject_Z (Qfloor x)
  /\ 0 <= r < 1
  /\ r + inject_Z i == x.
Proof.
  apply (frac_nonneg_exact (5 # 2)).
  - vm_compute. reflexivity.
  - vm_compute. discriminate.
  - vm_compute. reflexivity.
Defined.

(** Amplitudes and offsets at [a = 1/2]. *)
Lemma cubic_offsets_range_witness :
  (1 # 6 <= @cubic_g0 exact (1 # 2) <= 5 # 6)
  /\ (1 # 6 <= @cubic_g1 exact (1 # 2) <= 5 # 6)
  /\ (- (1 # 5) <= @cubic_h0 exact (1 # 2) <= 0)
  /\ (1 <= @cubic_h1 exact (1 # 2) <= 6 # 5).
Proof.
  apply (cubic_offsets_range (1 # 2)).
  - vm_compute. discriminate.
  - vm_compute. discriminate.
Defined.

(** The weights at [a = 1/3]. *)
Lemma cubic_weights_accuracy_witness :
  Qabs (@cubic_w0 binary32 (1 # 3) - @cubic_w0 exact (1 # 3))
  <= 3 # 10000000
  /\ Qabs (@cubic_w1 binary32 (1 # 3) - @cubic_w1 exact (1 # 3))
     <= 6 # 10000000
  /\ Qabs (@cubic_w2 binary32 (1 # 3) - @cubic_w2 exact (1 # 3))
     <= 6 # 10000000
  /\ Qabs (@cubic_w3 binary32 (1 # 3) - @cubic_w3 exact (1 # 3))
     <= 1 # 10000000.
Proof.
  apply (cubic_weights_accuracy (1 # 3)).
  - vm_compute. discriminate.
  - vm_compute. reflexivity.
Defined.

(** An image that is 1/2 everywhere: every read lies between 0 and 1. *)
Lemma half_image_reads_within :
  reads_within (image_env (Scene.info_of 1) (fun _ _ => 1 # 2)) 0 1
  /\ reads4_within (image_env (Scene.info_of 1) (fun _ _ => 1 # 2)) 0 1.
Proof.
  assert (H : forall x y : Q, bilinear_read 4 4 (fun _ _ => 1 # 2) x y
                              == 1 # 2).
  { intros x y. unfold bilinear_read.
    rewrite (bilerp_affine (fun _ _ => 1 # 2) (1 # 2) 0 0);
      [ring | intros; ring]. }
  split.
  - intros tex x y. cbn [image_env Scene.info_of Z.eqb].
    simpl info_width. simpl info_height. rewrite H. split; discriminate.
  - intros tex x y. cbn [image_env Scene.info_of Z.eqb].
    simpl info_width. simpl info_height. unfold float4_within.
    cbn [f4x f4y f4z f4w]. rewrite H. repeat split; discriminate.
Defined.

Lemma bicubic_within_range_witness :
  let env := image_env (Scene.info_of 1) (fun _ _ => 1 # 2) in
  0 <= eval env
            (@kernel_image_interp_bicubic exact float (@float_value exact)
               (Scene.info_of 1) (make_float2 (1 # 3) (2 # 5)))
    <= 1.
Proof.
  exact (bicubic_within_range
           (image_env (Scene.info_of 1) (fun _ _ => 1 # 2))
           (Scene.info_of 1) (make_float2 (1 # 3) (2 # 5)) 0 1
           (proj1 half_image_reads_within)).
Defined.

Lemma bicubic_float4_within_range_witness :
  let env := image_env (Scene.info_of 1) (fun _ _ => 1 # 2) in
  float4_within 0 1
    (eval env
          (@kernel_image_interp_bicubic exact float4 (@float4_value exact)
             (Scene.info_of 1) (make_float2 (1 # 3) (2 # 5)))).
Proof.
  exact (bicubic_float4_within_range
           (image_env (Scene.info_of 1) (fun _ _ => 1 # 2))
           (Scene.info_of 1) (make_float2 (1 # 3) (2 # 5)) 0 1
           (proj2 half_image_reads_within)).
Defined.

(** The dot image sampled off the pixel centres. *)
Lemma bicubic_is_bspline_witness :
  let info := Scene.info_of 1 in
  let uv := make_float2 (1 # 3) (2 # 5) in
  let x := @pixel_coord exact (1 # 3) 4 in
  let y := @pixel_coord exact (2 # 5) 4 in
  eval (image_env info Scene.dot)
       (@kernel_image_interp_bicubic exact float (@float_value exact)
                                     info uv)
  == bspline16 Scene.dot (@pixel_frac exact x) (@pixel_frac exact y)
               (Qfloor x) (Qfloor y).
Proof.
  exact (bicubic_is_bspline (Scene.info_of 1) Scene.dot
           (make_float2 (1 # 3) (2 # 5)) eq_refl eq_refl).
Defined.

(** The image with texel [(p, q)] equal to [1 + 2 p + 3 q]. *)
Lemma bicubic_affine_image_witness :
  let info := Scene.info_of 1 in
  let texel := fun p q : Z => 1 + 2 * inject_Z p + 3 * inject_Z q in
  let env := image_env info texel in
  let x := (1 # 3) * inject_Z 4 - (1 # 2) in
  let y := (2 # 5) * inject_Z 4 - (1 # 2) in
  eval env (@kernel_image_interp_bicubic exact float (@float_value exact)
                                         info (make_float2 (1 # 3) (2 # 5)))
  == 1 + 2 * x + 3 * y
  /\ env _ (image_object_read_2D_float 101 (1 # 3) (2 # 5))
     == 1 + 2 * x + 3 * y.
Proof.
  exact (bicubic_affine_image (Scene.info_of 1)
           (fun p q : Z => 1 + 2 * inject_Z p + 3 * inject_Z q)
           (make_float2 (1 # 3) (2 # 5)) 1 2 3 eq_refl eq_refl
           (fun p q => Qeq_refl _)).
Defined.

(** The call budget of the scene's cubic single-channel texture. *)
Lemma interp_call_budget_witness :
  let t := trace Scene.env
                 (@kernel_image_interp binary32 Scene.NONE 2
                    (make_float2 (3 # 8) (3 # 8)) Scene.duv) in
  (length t <= 8)%nat
  /\ (count_calls TextureTable t <= 1)%nat
  /\ (count_calls TileWrap t <= 1)%nat
  /\ (count_calls TileMap t <= 1)%nat
  /\ (count_calls ImageInfoTable t <= 1)%nat
  /\ count_calls UdimIndex t = 0%nat
  /\ (count_calls HardwareRead t = 0%nat
      \/ count_calls HardwareRead t = 1%nat
      \/ count_calls HardwareRead t = 4%nat)
  /\ (count_calls HardwareRead t = 0%nat
      \/ count_calls ImageInfoTable t = 1%nat)
  /\ reads_follow_fetch false t = true
  /\ (forall (t1 t2 : list Call) (c : Call),
         t = t1 ++ c :: t2 -> collaborator c = HardwareRead ->
         count_calls ImageInfoTable t1 = 1%nat).
Proof.
  exact (@interp_call_budget binary32 Scene.NONE Scene.env 2
           (make_float2 (3 # 8) (3 # 8)) Scene.duv).
Defined.

(** The coordinate 3/8 on an image 4 texels wide. *)
Lemma bicubic_no_division_by_zero_witness :
  let x := @pixel_coord binary32 (3 # 8) 4 in
  let f := @pixel_frac binary32 x in
  (Qabs (@int_to_float binary32 4) <= FLT_MAX
   /\ Qabs (@fmul binary32 (3 # 8) (@int_to_float binary32 4)) <= FLT_MAX
   /\ Qabs x <= FLT_MAX
   /\ Qabs (floorf x) <= FLT_MAX)
  /\ 0 <= f <= 1
  /\ 1 # 7 <= @cubic_g0 binary32 f /\ 1 # 7 <= @cubic_g1 binary32 f
  /\ ~ @cubic_g0 binary32 f == 0 /\ ~ @cubic_g1 binary32 f == 0.
Proof.
  apply (bicubic_no_division_by_zero (3 # 8) 4).
  - vm_compute. discriminate.
  - vm_compute. discriminate.
Defined.
